(** * Delta Green player UI: the "Last Entries" refresh controller

    A shallow embedding of the load coordinator of
    [scripts/ui-components.js] (class [DeltaGreenUI]): the single-flight
    and debounce guards of [loadLastEntries], its watchdog timeout, the
    completion handler [_finishLoading], the recent-records selection
    [_getRecentActors], the row markup of [_generateActorsHTML] and the
    fallback [forceDisplayLastEntries].

    The JavaScript host is modelled explicitly: timers are tables from
    positive handles to deadlines or periods, [Date.now()] is read from
    the environment of each call, the DOM is reduced to the LAST ENTRIES
    section and its list, and exceptions are a result type. *)

From Stdlib Require Import ZArith List Lia Ascii String.
From Stdlib Require Import Sorting.Sorted Sorting.Permutation.
From stdpp Require Import gmap strings list fin_maps.

Local Open Scope string_scope.
Local Open Scope Z_scope.

(* ===================================================================== *)
(** ** JavaScript values used by the controller *)
(* ===================================================================== *)

Module JS.

(** A JavaScript Number restricted to the values the code can produce:
    integer-valued doubles, the two infinities and NaN. *)
Inductive Number : Type :=
| Fin (z : Z)
| PosInf
| NegInf
| NaN.

(** Rounding of a non-negative integer to the nearest double (ties to
    even, 53 bits of significand); [None] when the result overflows. *)
Definition roundMagnitude (n : Z) : option Z :=
  if n <? 2 ^ 53 then Some n
  else
    let e := Z.log2 n - 52 in
    let q := n / 2 ^ e in
    let r := n mod 2 ^ e in
    let half := 2 ^ (e - 1) in
    let q' := if r <? half then q
              else if half <? r then q + 1
              else if Z.even q then q else q + 1 in
    let v := q' * 2 ^ e in
    if 2 ^ 1024 <=? v then None else Some v.

(** The Number value of a mathematical integer. *)
Definition toNumber (z : Z) : Number :=
  match roundMagnitude (Z.abs z) with
  | Some m => Fin (Z.sgn z * m)
  | None => if z <? 0 then NegInf else PosInf
  end.

(** [a - b] on Numbers. *)
Definition sub (a b : Number) : Number :=
  match a, b with
  | NaN, _ | _, NaN => NaN
  | Fin x, Fin y => toNumber (x - y)
  | PosInf, PosInf | NegInf, NegInf => NaN
  | PosInf, _ => PosInf
  | NegInf, _ => NegInf
  | Fin _, PosInf => NegInf
  | Fin _, NegInf => PosInf
  end.

(** [v > 0]; false on NaN, which a sort comparator treats as [+0]. *)
Definition isPositive (v : Number) : bool :=
  match v with
  | Fin z => 0 <? z
  | PosInf => true
  | NegInf | NaN => false
  end.

Definition isDigit (c : ascii) : bool :=
  let n := Z.of_N (N_of_ascii c) in (48 <=? n) && (n <=? 57).

Definition digitValue (c : ascii) : Z := Z.of_N (N_of_ascii c) - 48.

(** [s.replace(/[^0-9]/g, '')] *)
Fixpoint stripNonDigits (s : string) : string :=
  match s with
  | EmptyString => EmptyString
  | String c r =>
      if isDigit c then String c (stripNonDigits r) else stripNonDigits r
  end.

(** The leading run of decimal digits of [s]. *)
Fixpoint digitPrefix (s : string) : string :=
  match s with
  | EmptyString => EmptyString
  | String c r => if isDigit c then String c (digitPrefix r) else EmptyString
  end.

(** The integer written by a string of decimal digits. *)
Fixpoint mathInt (acc : Z) (s : string) : Z :=
  match s with
  | EmptyString => acc
  | String c r => mathInt (10 * acc + digitValue c) r
  end.

(** [parseInt(s)] for strings without sign, blanks or radix prefix (the
    only ones the code passes): NaN without a leading digit, otherwise
    the Number value of the integer the leading digits write. *)
Definition parseInt (s : string) : Number :=
  match digitPrefix s with
  | EmptyString => NaN
  | ds => toNumber (mathInt 0 ds)
  end.

(** [s || d] on strings: the empty string is falsy. *)
Definition orElse (s d : string) : string :=
  match s with
  | EmptyString => d
  | _ => s
  end.

(** [Array.prototype.sort(cmp)]. The language requires a stable sort,
    so for a consistent comparator the result is the one of any stable
    sort; it is modelled by insertion from the right, where an element
    moves behind exactly those followers the comparator places strictly
    before it. *)
Fixpoint insertSorted {A : Type} (cmp : A -> A -> Number) (x : A) (l : list A)
  : list A :=
  match l with
  | [] => [x]
  | y :: r => if isPositive (cmp x y) then y :: insertSorted cmp x r else x :: l
  end.

Definition sort {A : Type} (cmp : A -> A -> Number) (l : list A) : list A :=
  foldr (insertSorted cmp) [] l.

(** Truthiness of a value that is an object or a positive handle when
    present, and [null] or [undefined] otherwise. *)
Definition truthy {A : Type} (o : option A) : bool :=
  match o with
  | Some _ => true
  | None => false
  end.

(** [l.slice(0, n)] for [0 <= n]. *)
Definition slice0 {A : Type} (n : nat) (l : list A) : list A := firstn n l.

(** [a <= b] on Numbers: false as soon as one side is NaN. *)
Definition leb (a b : Number) : bool :=
  match a, b with
  | NaN, _ | _, NaN => false
  | Fin x, Fin y => x <=? y
  | NegInf, _ => true
  | _, PosInf => true
  | _, _ => false
  end.

(** [a === b] on Numbers: NaN equals nothing. *)
Definition eqb (a b : Number) : bool :=
  match a, b with
  | Fin x, Fin y => x =? y
  | PosInf, PosInf | NegInf, NegInf => true
  | _, _ => false
  end.

(** [s.charAt(i)]: the empty string out of range. *)
Definition charAt (s : string) (i : nat) : string :=
  match String.get i s with
  | Some c => String c EmptyString
  | None => EmptyString
  end.

(** [s.substring(0, n)] for [0 <= n]: the whole of [s] when [n] exceeds
    its length. *)
Fixpoint substring0 (n : nat) (s : string) : string :=
  match n, s with
  | O, _ => EmptyString
  | S _, EmptyString => EmptyString
  | S m, String c r => String c (substring0 m r)
  end.

(** [l.slice(-n)] for [0 < n]: the last [n] elements, all of [l] when
    it has fewer. *)
Definition sliceLast {A : Type} (n : nat) (l : list A) : list A :=
  skipn (length l - n) l.

End JS.

(* ===================================================================== *)
(** ** Records of the host application *)
(* ===================================================================== *)

(** A value or a thrown exception. *)
Inductive Result (A : Type) : Type :=
| Value (a : A)
| Throws.
Arguments Value {A} a.
Arguments Throws {A}.

Record Folder : Type := {
  folder_id : string;
  folder_name : string;
  folder_type : string
}.

(** An actor document. [actor_flags] holds the flags stored under the
    module's scope; [actor_flagsThrow] tells that [getFlag] throws for
    that scope. *)
Record Actor : Type := {
  actor_id : string;
  actor_name : string;
  actor_folder : option Folder;
  actor_flags : gmap string string;
  actor_flagsThrow : bool
}.

(** What one call observes of the world: the two readings of
    [Date.now()], the [game] collections ([None] when the collection
    cannot be queried, so that using it throws), whether the DOM update
    of the rows throws, whether the error handler's own DOM update
    throws, and the user's [interfaceActive] flag. *)
Record Env : Type := {
  now : Z;
  finishedAt : Z;
  game_folders : option (list Folder);
  game_actors : option (list Actor);
  renderThrows : bool;
  placeholderThrows : bool;
  interfaceActive : bool
}.

(* ===================================================================== *)
(** ** Selection of the recent records *)
(* ===================================================================== *)

(** [game.folders.find(f => f.name === "PC Records" && f.type === "Actor")] *)
Definition _getPCRecordsFolder (e : Env) : Result (option Folder) :=
  match game_folders e with
  | None => Throws
  | Some fs =>
      Value (List.find (fun f => String.eqb (folder_name f) "PC Records"
                                 && String.eqb (folder_type f) "Actor") fs)
  end.

(** [a => a.folder?.id === folder.id] *)
Definition inFolder (folder : Folder) (a : Actor) : bool :=
  match actor_folder a with
  | Some f => String.eqb (folder_id f) (folder_id folder)
  | None => false
  end.

Definition _hasActorsInFolder (actors : list Actor) (folder : Folder) : bool :=
  (0 <? length (List.filter (inFolder folder) actors))%nat.

(** The integer embedded in a record's id: its digits read in base ten,
    0 when it has none. *)
Definition idInteger (a : Actor) : Z :=
  JS.mathInt 0 (JS.orElse (JS.stripNonDigits (JS.orElse (actor_id a) "")) "0").

(** [parseInt(aId.replace(/[^0-9]/g, '') || '0')] with [aId = a.id || ''] *)
Definition idNumber (a : Actor) : JS.Number :=
  let aId := JS.orElse (actor_id a) "" in
  JS.parseInt (JS.orElse (JS.stripNonDigits aId) "0").

(** The comparator of [_getRecentActors]: [bNum - aNum]. *)
Definition recentCompare (a b : Actor) : JS.Number :=
  let aNum := idNumber a in
  let bNum := idNumber b in
  JS.sub bNum aNum.

Definition _getRecentActors (actors : list Actor) (folder : Folder) : list Actor :=
  let allActors := List.filter (inFolder folder) actors in
  let sortedActors := JS.sort recentCompare allActors in
  JS.slice0 (Nat.min 3 (length sortedActors)) sortedActors.

(* ===================================================================== *)
(** ** Row markup *)
(* ===================================================================== *)

Definition isEmpty (s : string) : bool :=
  match s with
  | EmptyString => true
  | _ => false
  end.

(** [actor.getFlag(this.ID, key) || d] once the scope is known valid. *)
Definition flagOr (a : Actor) (key d : string) : string :=
  match actor_flags a !! key with
  | Some v => JS.orElse v d
  | None => d
  end.

(** The text shown for one record. The three flags are read inside one
    [try]: when [getFlag] throws (on the first read) the defaults stay. *)
Definition entryLabel (a : Actor) : string :=
  let '(firstName, reference, middleName) :=
    if actor_flagsThrow a then ("", "UNKNOWN", "")
    else (flagOr a "firstName" "", flagOr a "surname" "UNKNOWN",
          flagOr a "middleName" "") in
  if isEmpty firstName && String.eqb reference "UNKNOWN" then actor_name a
  else reference +:+ " - " +:+ firstName +:+ " " +:+ middleName.

(** The double-quote character of the markup. *)
Definition dq : string := String (ascii_of_nat 34) EmptyString.

Definition actorRow (a : Actor) : string :=
  "<li class=" +:+ dq +:+ "dg-result-item" +:+ dq +:+ " data-actor-id="
  +:+ dq +:+ actor_id a +:+ dq +:+ ">" +:+ entryLabel a +:+ "</li>".

Definition _generateActorsHTML (actors : list Actor) : string :=
  fold_left (fun htmlContent actor => htmlContent +:+ actorRow actor) actors "".

Definition placeholderRow (text : string) : string :=
  "<li class=" +:+ dq +:+ "dg-result-item dg-no-entries" +:+ dq +:+ ">"
  +:+ text +:+ "</li>".

Definition noEntriesRow : string := placeholderRow "No recent entries found".

Definition errorRow : string := placeholderRow "Error loading entries".

(* ===================================================================== *)
(** ** Controller state and host tables *)
(* ===================================================================== *)

(** The list element [#dg-last-entries-list]: the markup written into
    it, in the pieces and the order the code wrote it (what
    [innerHTML = ''], [append(markup)] and [html(markup)] leave), and
    whether the padding and background style has been applied. The [li]
    children of the page are what the browser parses from these pieces;
    every piece the code writes holds at least one [li], so the list has
    no child exactly when [rows] is empty. *)
Record ListElem : Type := {
  rows : list string;
  styled : bool
}.

(** The part of the document the controller touches: the section titled
    LAST ENTRIES and the list inside it. *)
Record Dom : Type := {
  sectionPresent : bool;
  entriesList : option ListElem
}.

(** The two callbacks the code installs with [setInterval]: the one of
    [renderInterface], [openInterface] and [toggleInterface] (load, then
    force display) and the one of the reschedules (load only). *)
Inductive TickCallback : Type :=
| RefreshAndForce
| RefreshOnly.

(** The static fields of [DeltaGreenUI] that the controller owns,
    together with the host's timer tables and the document. Timer handles
    are positive integers, hence truthy. [timeouts] maps an armed timeout
    to the time it is due, [intervals] an active interval to its period
    and callback. *)
Record State : Type := {
  isLoadingEntries : bool;
  lastSuccessfulLoad : Z;
  consecutiveErrors : Z;
  refreshIntervalId : option positive;
  timeouts : gmap positive Z;
  intervals : gmap positive (Z * TickCallback);
  nextTimerId : positive;
  dom : Dom
}.

Definition set_isLoadingEntries (b : bool) (s : State) : State :=
  {| isLoadingEntries := b; lastSuccessfulLoad := lastSuccessfulLoad s;
     consecutiveErrors := consecutiveErrors s;
     refreshIntervalId := refreshIntervalId s; timeouts := timeouts s;
     intervals := intervals s; nextTimerId := nextTimerId s; dom := dom s |}.

Definition set_lastSuccessfulLoad (t : Z) (s : State) : State :=
  {| isLoadingEntries := isLoadingEntries s; lastSuccessfulLoad := t;
     consecutiveErrors := consecutiveErrors s;
     refreshIntervalId := refreshIntervalId s; timeouts := timeouts s;
     intervals := intervals s; nextTimerId := nextTimerId s; dom := dom s |}.

Definition set_consecutiveErrors (c : Z) (s : State) : State :=
  {| isLoadingEntries := isLoadingEntries s;
     lastSuccessfulLoad := lastSuccessfulLoad s; consecutiveErrors := c;
     refreshIntervalId := refreshIntervalId s; timeouts := timeouts s;
     intervals := intervals s; nextTimerId := nextTimerId s; dom := dom s |}.

Definition set_refreshIntervalId (r : option positive) (s : State) : State :=
  {| isLoadingEntries := isLoadingEntries s;
     lastSuccessfulLoad := lastSuccessfulLoad s;
     consecutiveErrors := consecutiveErrors s; refreshIntervalId := r;
     timeouts := timeouts s; intervals := intervals s;
     nextTimerId := nextTimerId s; dom := dom s |}.

Definition set_timeouts (m : gmap positive Z) (s : State) : State :=
  {| isLoadingEntries := isLoadingEntries s;
     lastSuccessfulLoad := lastSuccessfulLoad s;
     consecutiveErrors := consecutiveErrors s;
     refreshIntervalId := refreshIntervalId s; timeouts := m;
     intervals := intervals s; nextTimerId := nextTimerId s; dom := dom s |}.

Definition set_intervals (m : gmap positive (Z * TickCallback)) (s : State)
  : State :=
  {| isLoadingEntries := isLoadingEntries s;
     lastSuccessfulLoad := lastSuccessfulLoad s;
     consecutiveErrors := consecutiveErrors s;
     refreshIntervalId := refreshIntervalId s; timeouts := timeouts s;
     intervals := m; nextTimerId := nextTimerId s; dom := dom s |}.

Definition set_nextTimerId (h : positive) (s : State) : State :=
  {| isLoadingEntries := isLoadingEntries s;
     lastSuccessfulLoad := lastSuccessfulLoad s;
     consecutiveErrors := consecutiveErrors s;
     refreshIntervalId := refreshIntervalId s; timeouts := timeouts s;
     intervals := intervals s; nextTimerId := h; dom := dom s |}.

Definition set_dom (d : Dom) (s : State) : State :=
  {| isLoadingEntries := isLoadingEntries s;
     lastSuccessfulLoad := lastSuccessfulLoad s;
     consecutiveErrors := consecutiveErrors s;
     refreshIntervalId := refreshIntervalId s; timeouts := timeouts s;
     intervals := intervals s; nextTimerId := nextTimerId s; dom := d |}.

(** *** Host timers *)

(** [setTimeout(cb, delay)] called at time [t]: a fresh handle, due at
    [t + delay]. Every timeout of this model carries the watchdog
    callback of [loadLastEntries]. *)
Definition setTimeout (t delay : Z) (s : State) : positive * State :=
  let h := nextTimerId s in
  (h, set_nextTimerId (Pos.succ h) (set_timeouts (<[h := t + delay]> (timeouts s)) s)).

Definition clearTimeout (h : positive) (s : State) : State :=
  set_timeouts (delete h (timeouts s)) s.

Definition setInterval (cb : TickCallback) (period : Z) (s : State)
  : positive * State :=
  let h := nextTimerId s in
  (h, set_nextTimerId (Pos.succ h)
        (set_intervals (<[h := (period, cb)]> (intervals s)) s)).

Definition clearInterval (h : positive) (s : State) : State :=
  set_intervals (delete h (intervals s)) s.

(** *** The list element *)

(** Apply [f] to the list element, when there is one. *)
Definition onList (f : ListElem -> ListElem) (s : State) : State :=
  set_dom {| sectionPresent := sectionPresent (dom s);
             entriesList := f <$> entriesList (dom s) |} s.

Definition withRows (rs : list string) (l : ListElem) : ListElem :=
  {| rows := rs; styled := styled l |}.

Definition appendRow (r : string) (l : ListElem) : ListElem :=
  {| rows := rows l ++ [r]; styled := styled l |}.

(** [$list.css({padding: "10px", background: "#111"})] *)
Definition applyStyle (l : ListElem) : ListElem :=
  {| rows := rows l; styled := true |}.

(** [$section.append('<ul class="dg-results-list" id="dg-last-entries-list"></ul>')] *)
Definition appendEntriesList (s : State) : State :=
  set_dom {| sectionPresent := sectionPresent (dom s);
             entriesList := Some {| rows := []; styled := false |} |} s.

(** [_createEntriesList]: the new list, or nothing without the section. *)
Definition _createEntriesList (s : State) : State :=
  if sectionPresent (dom s) then appendEntriesList s else s.

(* ===================================================================== *)
(** ** The load cycle *)
(* ===================================================================== *)

(** How a call of [loadLastEntries] ended. *)
Inductive Outcome : Type :=
| SkippedInFlight      (* a load was already in progress *)
| SkippedTooFrequent   (* less than 300ms since the last successful load *)
| Aborted              (* no list element could be found or created *)
| Succeeded            (* [_finishLoading(loadTimeout, true)] *)
| Failed               (* caught, [_finishLoading(loadTimeout, false)] *)
| Escaped.             (* the error handler itself threw *)

(** The recurring callback rescheduled by the completion handlers. *)
Definition reschedule (period : Z) (s : State) : State :=
  match refreshIntervalId s with
  | Some old =>
      let '(h, s') := setInterval RefreshOnly period (clearInterval old s) in
      set_refreshIntervalId (Some h) s'
  | None => s
  end.

(** [_finishLoading(loadTimeout, success)], where [t] is what
    [Date.now()] returns inside it. *)
Definition _finishLoading (t : Z) (loadTimeout : positive) (success : bool)
    (s : State) : State :=
  let s := clearTimeout loadTimeout s in
  let s := set_isLoadingEntries false s in
  if success then
    let s := set_lastSuccessfulLoad t s in
    let s := set_consecutiveErrors 0 s in
    if JS.truthy (refreshIntervalId s) && (consecutiveErrors s =? 0)
    then reschedule 500 s
    else s
  else set_consecutiveErrors (consecutiveErrors s + 1) s.

(** The callback of the watchdog timeout. *)
Definition watchdogCallback (s : State) : State :=
  let s := set_isLoadingEntries false s in
  let s := set_consecutiveErrors (consecutiveErrors s + 1) s in
  if (3 <? consecutiveErrors s) && JS.truthy (refreshIntervalId s)
  then reschedule 2000 s
  else s.

(** The [try] block of [loadLastEntries]: it returns, or throws with the
    state it has reached. *)
Inductive Completion : Type :=
| Returned (s : State) (o : Outcome)
| Thrown (s : State).

Definition tryLoad (e : Env) (loadTimeout : positive) (s : State) : Completion :=
  let s := if JS.truthy (entriesList (dom s)) then s else _createEntriesList s in
  if negb (JS.truthy (entriesList (dom s))) then
    Returned (set_isLoadingEntries false (clearTimeout loadTimeout s)) Aborted
  else
    let s := onList applyStyle s in
    match _getPCRecordsFolder e with
    | Throws => Thrown s
    | Value folder =>
        let s := onList (withRows []) s in
        let noEntries :=
          Returned (_finishLoading (finishedAt e) loadTimeout true
                      (onList (appendRow noEntriesRow) s)) Succeeded in
        match folder with
        | None => noEntries
        | Some f =>
            match game_actors e with
            | None => Thrown s
            | Some actors =>
                if negb (_hasActorsInFolder actors f) then noEntries
                else
                  let recentActors := _getRecentActors actors f in
                  let htmlContent := _generateActorsHTML recentActors in
                  if renderThrows e then Thrown s
                  else
                    let s := onList (withRows [htmlContent]) s in
                    Returned (_finishLoading (finishedAt e) loadTimeout true s)
                             Succeeded
            end
        end
    end.

(** The [catch] block of [loadLastEntries]. *)
Definition catchLoad (e : Env) (loadTimeout : positive) (s : State)
  : State * Outcome :=
  if placeholderThrows e then (s, Escaped)
  else
    let s := onList (withRows [errorRow]) s in
    (_finishLoading (finishedAt e) loadTimeout false s, Failed).

Definition loadLastEntries (e : Env) (s : State) : State * Outcome :=
  if isLoadingEntries s then (s, SkippedInFlight)
  else if now e - lastSuccessfulLoad s <? 300 then (s, SkippedTooFrequent)
  else
    let s := set_isLoadingEntries true s in
    let '(loadTimeout, s) := setTimeout (now e) 3000 s in
    match tryLoad e loadTimeout s with
    | Returned s' o => (s', o)
    | Thrown s' => catchLoad e loadTimeout s'
    end.

(** [forceDisplayLastEntries]: the state, and how the call of
    [loadLastEntries] ended when one was made. *)
Definition forceDisplayLastEntries (e : Env) (s : State)
  : State * option Outcome :=
  if negb (interfaceActive e) then (s, None)
  else if sectionPresent (dom s) then
    let s := if JS.truthy (entriesList (dom s)) then s else appendEntriesList s in
    let s := onList applyStyle s in
    match entriesList (dom s) with
    | Some l =>
        if (length (rows l) =? 0)%nat
        then let '(s', o) := loadLastEntries e s in (s', Some o)
        else (s, None)
    | None => (s, None)
    end
  else (s, None).

(* ===================================================================== *)
(** ** The recurring timer and the event loop *)
(* ===================================================================== *)

(** The timer part of the LOG OUT handler and of the deactivation branch
    of [toggleInterface]. *)
Definition stopRefresh (s : State) : State :=
  match refreshIntervalId s with
  | Some h => set_refreshIntervalId None (clearInterval h s)
  | None => s
  end.

(** The timer part of [openInterface] and of the activation branch of
    [toggleInterface]. *)
Definition startRefresh (s : State) : State :=
  match refreshIntervalId s with
  | None =>
      let '(h, s') := setInterval RefreshAndForce 500 s in
      set_refreshIntervalId (Some h) s'
  | Some _ => s
  end.

(** The timer part of [renderInterface]: the old interval is cleared and
    a new one is always created. *)
Definition renewRefresh (s : State) : State :=
  let s := match refreshIntervalId s with
           | Some h => clearInterval h s
           | None => s
           end in
  let '(h, s') := setInterval RefreshAndForce 500 s in
  set_refreshIntervalId (Some h) s'.

(** One run of an interval callback. An exception leaving
    [loadLastEntries] ends the callback. *)
Definition tick (cb : TickCallback) (e e' : Env) (s : State) : State :=
  if interfaceActive e then
    let '(s1, o) := loadLastEntries e s in
    match cb, o with
    | RefreshOnly, _ => s1
    | RefreshAndForce, Escaped => s1
    | RefreshAndForce, _ => fst (forceDisplayLastEntries e' s1)
    end
  else s.

(** The host runs interval [h], when it is active. *)
Definition fireInterval (h : positive) (e e' : Env) (s : State) : State :=
  match intervals s !! h with
  | Some (_, cb) => tick cb e e' s
  | None => s
  end.

(** The host runs timeout [h] at time [t]: possible only when [h] is
    armed and due; the timeout is spent. *)
Definition fireTimeout (h : positive) (t : Z) (s : State) : option State :=
  match timeouts s !! h with
  | Some due =>
      if due <=? t then Some (watchdogCallback (clearTimeout h s)) else None
  | None => None
  end.

(** What the event loop can deliver to the controller. *)
Inductive Event : Type :=
| CallLoad (e : Env)                       (* hooks, [onReady], [renderInterface] *)
| CallForce (e : Env)                      (* [forceDisplayLastEntries] *)
| IntervalFires (h : positive) (e e' : Env)
| TimeoutFires (h : positive) (t : Z)
| StopRefresh
| StartRefresh
| RenewRefresh
| DocumentChanges (d : Dom).               (* another view rewrites the page *)

Definition step (ev : Event) (s : State) : State :=
  match ev with
  | CallLoad e => fst (loadLastEntries e s)
  | CallForce e => fst (forceDisplayLastEntries e s)
  | IntervalFires h e e' => fireInterval h e e' s
  | TimeoutFires h t => default s (fireTimeout h t s)
  | StopRefresh => stopRefresh s
  | StartRefresh => startRefresh s
  | RenewRefresh => renewRefresh s
  | DocumentChanges d => set_dom d s
  end.

Definition run (evs : list Event) (s : State) : State :=
  fold_left (fun s ev => step ev s) evs s.

Definition isTimeoutEvent (ev : Event) : bool :=
  match ev with
  | TimeoutFires _ _ => true
  | _ => false
  end.

(** The static initialisers of the class, over a document [d]. *)
Definition initial (d : Dom) : State :=
  {| isLoadingEntries := false; lastSuccessfulLoad := 0;
     consecutiveErrors := 0; refreshIntervalId := None;
     timeouts := ∅; intervals := ∅; nextTimerId := 1%positive; dom := d |}.

(** The markup on display, in the pieces it was written. *)
Definition renderedRows (s : State) : list string :=
  match entriesList (dom s) with
  | Some l => rows l
  | None => []
  end.

(** The period of the recurring timer, when it runs. *)
Definition cadence (s : State) : option Z :=
  h ← refreshIntervalId s; fst <$> intervals s !! h.

(** A load that reaches the folder test and finds no folder, or a folder
    without records. *)
Definition findsNoRecords (e : Env) : Prop :=
  match _getPCRecordsFolder e with
  | Value None => True
  | Value (Some f) =>
      match game_actors e with
      | Some actors => _hasActorsInFolder actors f = false
      | None => False
      end
  | Throws => False
  end.

(** A list element exists or can be created. *)
Definition listAvailable (s : State) : bool :=
  JS.truthy (entriesList (dom s)) || sectionPresent (dom s).

(** Ids whose embedded integer a Number holds exactly. *)
Definition safeId (a : Actor) : Prop := idInteger a < 2 ^ 53.

(** Descending order of the embedded integers. *)
Definition descendingIds (l : list Actor) : Prop :=
  StronglySorted (fun a b => idInteger b <= idInteger a) l.

(** The records of [l] whose embedded integer is [k], in their order. *)
Definition withInteger (k : Z) (l : list Actor) : list Actor :=
  List.filter (fun a => idInteger a =? k) l.

Fixpoint digitsOnly (s : string) : bool :=
  match s with
  | EmptyString => true
  | String c r => JS.isDigit c && digitsOnly r
  end.

(** *** Sample data *)

Definition pcRecords : Folder :=
  {| folder_id := "folder01"; folder_name := "PC Records"; folder_type := "Actor" |}.

Definition record (id name : string) (flags : gmap string string) : Actor :=
  {| actor_id := id; actor_name := name; actor_folder := Some pcRecords;
     actor_flags := flags; actor_flagsThrow := false |}.

Definition actor9 : Actor := record "actor-9" "Nine" ∅.
Definition actor123 : Actor := record "actor-123" "One two three" ∅.
Definition actor45 : Actor := record "actor-45" "Four five" ∅.

(** Two ids one apart, at the first integer a Number cannot hold. *)
Definition actorBig0 : Actor := record "actor-9007199254740992" "Even" ∅.
Definition actorBig1 : Actor := record "actor-9007199254740993" "Odd" ∅.

(** *** The load cycle as a relation *)

(** The state in which the [try] block starts: loading, watchdog armed. *)
Definition armWatchdog (e : Env) (s : State) : State :=
  snd (setTimeout (now e) 3000 (set_isLoadingEntries true s)).

(** Both guards are passed. *)
Definition starts (e : Env) (s : State) : Prop :=
  isLoadingEntries s = false /\ 300 <= now e - lastSuccessfulLoad s.

(** The ways a call of [loadLastEntries] can end, up to the document [d]
    it leaves. The handle of the cycle's watchdog is [nextTimerId s]. *)
Inductive LoadStep (e : Env) (s : State) : State -> Outcome -> Prop :=
| LoadInFlight :
    isLoadingEntries s = true -> LoadStep e s s SkippedInFlight
| LoadTooFrequent :
    isLoadingEntries s = false -> now e - lastSuccessfulLoad s < 300 ->
    LoadStep e s s SkippedTooFrequent
| LoadAborted d :
    starts e s ->
    LoadStep e s
      (set_isLoadingEntries false
         (clearTimeout (nextTimerId s) (set_dom d (armWatchdog e s))))
      Aborted
| LoadSucceeded d :
    starts e s ->
    LoadStep e s
      (_finishLoading (finishedAt e) (nextTimerId s) true
         (set_dom d (armWatchdog e s)))
      Succeeded
| LoadFailed d :
    starts e s ->
    LoadStep e s
      (_finishLoading (finishedAt e) (nextTimerId s) false
         (set_dom d (armWatchdog e s)))
      Failed
| LoadEscaped d :
    starts e s -> LoadStep e s (set_dom d (armWatchdog e s)) Escaped.

(** Load cycles in flight: each holds its armed watchdog. *)
Definition inFlight (s : State) : nat := size (timeouts s).

(** The flag tells whether a cycle is in flight, and there is at most one. *)
Definition SingleFlight (s : State) : Prop :=
  if isLoadingEntries s then exists h due, timeouts s = {[h := due]}
  else timeouts s = ∅.

(** *** Sample documents, worlds and states *)

Definition domWithList : Dom :=
  {| sectionPresent := true;
     entriesList := Some {| rows := []; styled := false |} |}.

(** A world whose PC Records folder holds three records, read at [t]. *)
Definition world (t : Z) : Env :=
  {| now := t; finishedAt := t + 5;
     game_folders := Some [pcRecords];
     game_actors := Some [actor9; actor123; actor45];
     renderThrows := false; placeholderThrows := false;
     interfaceActive := true |}.

(** The folder collection cannot be queried. *)
Definition worldDown (t : Z) : Env :=
  {| now := t; finishedAt := t + 5;
     game_folders := None; game_actors := None;
     renderThrows := false; placeholderThrows := false;
     interfaceActive := true |}.

(** As [worldDown], and the error handler cannot update the list either. *)
Definition worldStuck (t : Z) : Env :=
  {| now := t; finishedAt := t + 5;
     game_folders := None; game_actors := None;
     renderThrows := false; placeholderThrows := true;
     interfaceActive := true |}.

(** No PC Records folder. *)
Definition worldEmpty (t : Z) : Env :=
  {| now := t; finishedAt := t + 5;
     game_folders := Some []; game_actors := Some [];
     renderThrows := false; placeholderThrows := false;
     interfaceActive := true |}.

(** The controller once the interface is open: timer running at 500ms. *)
Definition running : State := startRefresh (initial domWithList).

(** Three consecutive errors on the count, timer running at 500ms. *)
Definition threeErrors : State := set_consecutiveErrors 3 running.

(** The timer degraded to 2000ms by a watchdog firing. *)
Definition degraded : State := watchdogCallback threeErrors.

(** A cycle stuck in flight, started at time 10000 on the running
    controller, and the same after the timer has been stopped. *)
Definition stuckInFlight : State :=
  fst (loadLastEntries (worldStuck 10000) running).

Definition stoppedInFlight : State := stopRefresh stuckInFlight.

(** *** Flags as the label sees them *)

(** The flag can be read and holds a non-empty text. *)
Definition flagSet (a : Actor) (key : string) : bool :=
  negb (actor_flagsThrow a) && negb (isEmpty (flagOr a key "")).

(** The text of a flag, empty when it is not set. *)
Definition flagText (a : Actor) (key : string) : string :=
  if actor_flagsThrow a then "" else flagOr a key "".

(** REFERENCE - FIRSTNAME MIDDLENAME *)
Definition fullLabel (reference : string) (a : Actor) : string :=
  reference +:+ " - " +:+ flagText a "firstName" +:+ " " +:+ flagText a "middleName".

(** A record with a first name and no surname. *)
Definition actorJohn : Actor :=
  record "actor-7" "Agent 7" {[ "firstName" := "JOHN" ]}.

(** A record with all three names. *)
Definition actorDoe : Actor :=
  record "actor-8" "Agent 8"
    (<[ "surname" := "DOE" ]> (<[ "firstName" := "JANE" ]> {[ "middleName" := "Q" ]})).

(* ===================================================================== *)
(** ** The PC Records folder, the player list and the login key *)
(* ===================================================================== *)

(** [createPCRecordsFolder]: the folders once the function has run, when
    [Folder.create] gives the new folder the id [newId]. The fields
    [parent] and [color] of the new folder play no part in any lookup
    and are left out. *)
Definition createPCRecordsFolder (newId : string) (e : Env) : Result (list Folder) :=
  match game_folders e with
  | None => Throws
  | Some fs =>
      match List.find (fun f => String.eqb (folder_name f) "PC Records"
                                && String.eqb (folder_type f) "Actor") fs with
      | Some _ => Value fs
      | None =>
          Value (fs ++ [{| folder_id := newId; folder_name := "PC Records";
                           folder_type := "Actor" |}])%list
      end
  end.

(** The world [e] with [fs] as its folders. *)
Definition withFolders (fs : list Folder) (e : Env) : Env :=
  {| now := now e; finishedAt := finishedAt e; game_folders := Some fs;
     game_actors := game_actors e; renderThrows := renderThrows e;
     placeholderThrows := placeholderThrows e;
     interfaceActive := interfaceActive e |}.

(** A user of the game; [user_character] is the name of the assigned
    character. *)
Record User : Type := {
  user_id : string;
  user_name : string;
  user_color : string;
  user_active : bool;
  user_isGM : bool;
  user_character : option string
}.

(** The line feed of the template literals. *)
Definition nl : string := String (ascii_of_nat 10) EmptyString.

(** [player.character ? player.character.name : 'NO AGENT ASSIGNED'] *)
Definition characterName (player : User) : string :=
  match user_character player with
  | Some name => name
  | None => "NO AGENT ASSIGNED"
  end.

(** [game.users.filter(u => u.active && !u.isGM)] *)
Definition activePlayers (users : list User) : list User :=
  List.filter (fun u => user_active u && negb (user_isGM u)) users.

(** The fragment [UIComponents.updatePlayersList] appends for a player. *)
Definition playerItem (player : User) : string :=
  nl +:+ "          <li class=" +:+ dq +:+ "dg-result-item" +:+ dq
  +:+ " data-user-id=" +:+ dq +:+ user_id player +:+ dq +:+ ">" +:+ nl
  +:+ "            <span style=" +:+ dq +:+ "color: " +:+ user_color player
  +:+ dq +:+ ">" +:+ user_name player +:+ "</span> - " +:+ characterName player
  +:+ nl +:+ "          </li>" +:+ nl +:+ "        ".

(** The fragment [DeltaGreenUI.loadPlayersList] appends for a player. *)
Definition playerLine (player : User) : string :=
  nl +:+ "          <li class=" +:+ dq +:+ "dg-result-item" +:+ dq
  +:+ " data-user-id=" +:+ dq +:+ user_id player +:+ dq +:+ ">" +:+ nl
  +:+ "            " +:+ user_name player +:+ " - " +:+ characterName player
  +:+ nl +:+ "          </li>" +:+ nl +:+ "        ".

Definition noPlayersRow : string := placeholderRow "No active players found".

(** [UIComponents.updatePlayersList] on the markup written into
    [#dg-players-list], in the fragments and the order the code appends
    them ([None] when the page has no such list). One fragment is
    appended per player; the [li] children of the page are what the
    browser parses from the fragments. *)
Definition updatePlayersList (users : list User) (ul : option (list string))
  : option (list string) :=
  match ul with
  | None => None
  | Some _ =>
      let players := activePlayers users in
      if (0 <? length players)%nat then Some (map playerItem players)
      else Some [noPlayersRow]
  end.

(** [DeltaGreenUI.loadPlayersList], on the appended fragments as above:
    without the list it hands over to [UIComponents.updatePlayersList]. *)
Definition loadPlayersList (users : list User) (ul : option (list string))
  : option (list string) :=
  match ul with
  | None => updatePlayersList users ul
  | Some _ =>
      let players := activePlayers users in
      if (0 <? length players)%nat then Some (map playerLine players)
      else Some [noPlayersRow]
  end.

(** *** The encryption key of the login animation *)

Definition keyAlphabet : string := "ABCDEFGHIJKLMNOPQRSTUVWXYZ0123456789".

(** The loop [for (i = 0; i < n; i++) acc += chars.charAt(...)], where
    [draw i] is the value of [Math.floor(Math.random() * charsLength)] in
    round [i]. *)
Definition appendRandom (n : nat) (draw : nat -> nat) (acc : string) : string :=
  fold_left (fun result i => result +:+ JS.charAt keyAlphabet (draw i)) (seq 0 n) acc.

Definition generateEncryptionKey (n : nat) (draw : nat -> nat) : string :=
  appendRandom n draw EmptyString.

(** [updateEncryptionKey(progress)]: the text set on [#dg-encryption-key]. *)
Definition updateEncryptionKey (finalKey : string) (progress : nat)
    (draw : nat -> nat) : string :=
  if (String.length finalKey <=? progress)%nat then finalKey
  else
    let keyDisplay := JS.substring0 progress finalKey in
    let remainingLength := (String.length finalKey - progress)%nat in
    appendRandom remainingLength draw keyDisplay.

(** The [keyProgress] of the animation steps, in order. *)
Definition stepProgress : list nat := [0; 3; 6; 9; 12; 14; 15; 16]%nat.

(** A draw that walks through the alphabet. *)
Definition cyclingDraw (i : nat) : nat := (7 * i + 3) mod 36.

(** Four users: the game master, two active players and an absent one. *)
Definition sampleUsers : list User :=
  [ {| user_id := "u0"; user_name := "Keeper"; user_color := "#ff0000";
       user_active := true; user_isGM := true; user_character := None |};
    {| user_id := "u1"; user_name := "Ann"; user_color := "#00ff00";
       user_active := true; user_isGM := false; user_character := Some "Agent A" |};
    {| user_id := "u2"; user_name := "Bob"; user_color := "#0000ff";
       user_active := true; user_isGM := false; user_character := None |};
    {| user_id := "u3"; user_name := "Cyd"; user_color := "#ffff00";
       user_active := false; user_isGM := false; user_character := None |} ].

(* ===================================================================== *)
(** ** The mail system *)
(* ===================================================================== *)

(** A message of the host's chat log. *)
Record ChatMessage : Type := {
  chat_id : string;
  chat_user : User;
  chat_content : string;
  chat_timestamp : Z
}.

(** A message in the interface's format. *)
Record MailMessage : Type := {
  mail_id : string;
  mail_sender : string;
  mail_content : string;
  mail_timestamp : Z
}.

(** The static field [MailSystem.messages] and the children of
    [#dg-messages-container], [None] when the page has no such element. *)
Record MailState : Type := {
  mail_messages : list MailMessage;
  mail_container : option (list string)
}.

(** A call returns, or throws with the state it has reached. *)
Inductive MailResult : Type :=
| Displayed (st : MailState)
| DisplayThrows (st : MailState).

Definition mailState (r : MailResult) : MailState :=
  match r with
  | Displayed st | DisplayThrows st => st
  end.

Definition mailThrows (r : MailResult) : bool :=
  match r with
  | Displayed _ => false
  | DisplayThrows _ => true
  end.

Definition noMessagesRow : string := "<p>NO MESSAGES</p>".

(** [container.append(x)] on the children of an element. *)
Definition appendChild (x : string) (children : list string) : list string :=
  (children ++ [x])%list.

Definition defaultColor : string := "#33ff33".

Section Mail.

(** [String.prototype.toUpperCase], left open: nothing below depends on
    how it maps characters. *)
Variable toUpperCase : string -> string.

Definition formatSenderName (user : User) : string :=
  if user_isGM user then "HANDLER" else toUpperCase (user_name user).

(** The conversion [loadMessages] and [renderChatMessage] apply. *)
Definition toMail (msg : ChatMessage) : MailMessage :=
  {| mail_id := chat_id msg; mail_sender := formatSenderName (chat_user msg);
     mail_content := chat_content msg; mail_timestamp := chat_timestamp msg |}.

(** The user whose colour the sender's name is shown in. *)
Definition senderUser (users : list User) (sender : string) : option User :=
  List.find (fun u => if user_isGM u && String.eqb sender "HANDLER" then true
                      else String.eqb (toUpperCase (user_name u)) sender) users.

Definition senderColor (users : list User) (sender : string) : string :=
  match senderUser users sender with
  | Some user => user_color user
  | None => defaultColor
  end.

Definition messageDiv (users : list User) (msg : MailMessage) : string :=
  "<div class=" +:+ dq +:+ "dg-message" +:+ dq +:+ ">"
  +:+ "<div class=" +:+ dq +:+ "dg-message-sender" +:+ dq +:+ " style=" +:+ dq
  +:+ "color: " +:+ senderColor users (mail_sender msg) +:+ dq +:+ ">"
  +:+ mail_sender msg +:+ "</div>"
  +:+ "<div class=" +:+ dq +:+ "dg-message-content" +:+ dq +:+ ">"
  +:+ mail_content msg +:+ "</div>"
  +:+ "</div>".

(** [displayMessages]. On a page without the container the jQuery calls
    do nothing, and the final [container[0].scrollHeight] throws. *)
Definition displayMessages (users : list User) (st : MailState) : MailResult :=
  let emptied := (fun _ : list string => []) <$> mail_container st in
  match mail_messages st with
  | [] =>
      Displayed {| mail_messages := mail_messages st;
                   mail_container := appendChild noMessagesRow <$> emptied |}
  | _ =>
      let filled :=
        fold_left (fun c msg => appendChild (messageDiv users msg) <$> c)
                  (mail_messages st) emptied in
      let st' := {| mail_messages := mail_messages st; mail_container := filled |} in
      match filled with
      | Some _ => Displayed st'
      | None => DisplayThrows st'
      end
  end.

(** [loadMessages], [chat] being [game.messages.contents]. *)
Definition loadMessages (chat : list ChatMessage) (users : list User)
    (st : MailState) : MailResult :=
  let chatMessages := JS.sliceLast 50 chat in
  displayMessages users {| mail_messages := map toMail chatMessages;
                           mail_container := mail_container st |}.

Definition renderChatMessage (message : ChatMessage) (users : list User)
    (st : MailState) : MailResult :=
  displayMessages users {| mail_messages := (mail_messages st ++ [toMail message])%list;
                           mail_container := mail_container st |}.

End Mail.

(** Upper case for the letters a to z, as a sample. *)
Fixpoint asciiUpper (s : string) : string :=
  match s with
  | EmptyString => EmptyString
  | String c r =>
      let n := nat_of_ascii c in
      String (if (97 <=? n)%nat && (n <=? 122)%nat then ascii_of_nat (n - 32) else c)
             (asciiUpper r)
  end.

Definition chatLine (n : nat) (u : User) : ChatMessage :=
  {| chat_id := "m"; chat_user := u; chat_content := "hello";
     chat_timestamp := Z.of_nat n |}.

(* ===================================================================== *)
(** ** Notions for the further properties *)
(* ===================================================================== *)

(** The recurring timers are tidy: the only active one is the one
    [refreshIntervalId] names, at one of the two periods; none is active
    when it is null. *)
Definition TimersTidy (s : State) : Prop :=
  match refreshIntervalId s with
  | Some h =>
      exists p cb, intervals s = {[h := (p, cb)]} /\ (p = 500 \/ p = 2000)
  | None => intervals s = ∅
  end.

(** The place of a Number on the line, the infinities lying beyond every
    double. *)
Definition numberRank (v : JS.Number) : Z :=
  match v with
  | JS.Fin z => z
  | JS.PosInf => 2 ^ 1024
  | JS.NegInf => - 2 ^ 1024
  | JS.NaN => 0
  end.

(** Descending order of the Numbers [parseInt] reads off the ids. *)
Definition descendingNumbers (l : list Actor) : Prop :=
  StronglySorted (fun a b => JS.leb (idNumber b) (idNumber a) = true) l.

(** The records of [l] whose id reads as the same Number as [a0]'s. *)
Definition withNumber (a0 : Actor) (l : list Actor) : list Actor :=
  List.filter (fun a => JS.eqb (idNumber a) (idNumber a0)) l.

(** The [try] block of [loadLastEntries] throws in world [e], once a
    list element is at hand. *)
Definition tryThrows (e : Env) : bool :=
  match _getPCRecordsFolder e with
  | Throws => true
  | Value None => false
  | Value (Some f) =>
      match game_actors e with
      | None => true
      | Some actors => _hasActorsInFolder actors f && renderThrows e
      end
  end.

(** Two calls see the same world: the same collections and the same
    page behaviour, whatever their clocks. *)
Definition sameWorld (e1 e2 : Env) : Prop :=
  game_folders e1 = game_folders e2
  /\ game_actors e1 = game_actors e2
  /\ renderThrows e1 = renderThrows e2
  /\ placeholderThrows e1 = placeholderThrows e2.

(** The timer degraded by a watchdog while a cycle is stuck in flight. *)
Definition stuckAfterThree : State :=
  fst (loadLastEntries (worldStuck 10000) threeErrors).

(** The Numbers an id can read as: a non-negative double or [Infinity]. *)
Definition idValued (v : JS.Number) : Prop :=
  match v with
  | JS.Fin m => 0 <= m < 2 ^ 1024
  | JS.PosInf => True
  | JS.NegInf | JS.NaN => False
  end.

(* ===================================================================== *)
(** * Properties *)
(* ===================================================================== *)

(** ** Numbers and digit strings *)

Lemma roundMagnitude_exact (n : Z) : n < 2 ^ 53 -> JS.roundMagnitude n = Some n.
Proof.
  intros H. unfold JS.roundMagnitude.
  destruct (Z.ltb_spec n (2 ^ 53)); [reflexivity | lia].
Qed.

Lemma toNumber_exact (z : Z) : Z.abs z < 2 ^ 53 -> JS.toNumber z = JS.Fin z.
Proof.
  intros H. unfold JS.toNumber. rewrite roundMagnitude_exact by exact H.
  f_equal. rewrite Z.mul_comm. apply Z.abs_sgn.
Qed.

Lemma isDigit_value (c : ascii) : JS.isDigit c = true -> 0 <= JS.digitValue c <= 9.
Proof.
  unfold JS.isDigit, JS.digitValue. intros H.
  apply andb_prop in H as [H1 H2].
  apply Z.leb_le in H1. apply Z.leb_le in H2. lia.
Qed.

Lemma mathInt_nonneg (s : string) : forall acc,
  digitsOnly s = true -> 0 <= acc -> 0 <= JS.mathInt acc s.
Proof.
  induction s as [|c r IH]; intros acc Hd Hacc; simpl in *; [exact Hacc|].
  apply andb_prop in Hd as [Hc Hr].
  apply IH; [exact Hr|]. pose proof (isDigit_value c Hc). lia.
Qed.

Lemma stripNonDigits_digitsOnly (s : string) :
  digitsOnly (JS.stripNonDigits s) = true.
Proof.
  induction s as [|c r IH]; simpl; [reflexivity|].
  destruct (JS.isDigit c) eqn:Hc; simpl; [rewrite Hc; exact IH | exact IH].
Qed.

Lemma digitPrefix_digitsOnly (s : string) :
  digitsOnly s = true -> JS.digitPrefix s = s.
Proof.
  induction s as [|c r IH]; simpl; [reflexivity|].
  intros H. apply andb_prop in H as [Hc Hr]. rewrite Hc, IH by exact Hr.
  reflexivity.
Qed.

Lemma idDigits_digitsOnly (a : Actor) :
  let ds := JS.orElse (JS.stripNonDigits (JS.orElse (actor_id a) "")) "0" in
  digitsOnly ds = true /\ ds <> EmptyString.
Proof.
  simpl. pose proof (stripNonDigits_digitsOnly (JS.orElse (actor_id a) "")) as H.
  destruct (JS.stripNonDigits (JS.orElse (actor_id a) "")) eqn:E; simpl.
  - split; [reflexivity | discriminate].
  - split; [exact H | discriminate].
Qed.

Lemma idInteger_nonneg (a : Actor) : 0 <= idInteger a.
Proof.
  unfold idInteger. apply mathInt_nonneg; [|lia].
  apply (idDigits_digitsOnly a).
Qed.

Lemma idNumber_safe (a : Actor) : safeId a -> idNumber a = JS.Fin (idInteger a).
Proof.
  intros Hs. unfold idNumber, JS.parseInt.
  destruct (idDigits_digitsOnly a) as [Hd Hne]. simpl in Hd, Hne.
  rewrite digitPrefix_digitsOnly by exact Hd.
  pose proof (idInteger_nonneg a) as H0. unfold safeId in Hs.
  destruct (JS.orElse (JS.stripNonDigits (JS.orElse (actor_id a) "")) "0")
    as [|a0 s0] eqn:E; [congruence|].
  assert (Hi : idInteger a = JS.mathInt 0 (String a0 s0))
    by (unfold idInteger; rewrite E; reflexivity).
  rewrite <- Hi. apply toNumber_exact. lia.
Qed.

Lemma recentCompare_safe (a b : Actor) :
  safeId a -> safeId b ->
  JS.isPositive (recentCompare a b) = (idInteger a <? idInteger b).
Proof.
  intros Ha Hb. unfold recentCompare.
  rewrite (idNumber_safe a Ha), (idNumber_safe b Hb). simpl.
  pose proof (idInteger_nonneg a). pose proof (idInteger_nonneg b).
  unfold safeId in *. rewrite toNumber_exact by lia. simpl.
  destruct (Z.ltb_spec 0 (idInteger b - idInteger a));
    destruct (Z.ltb_spec (idInteger a) (idInteger b)); lia || reflexivity.
Qed.

(** ** The stable sort *)

Section StableSort.
Context {A : Type} (cmp : A -> A -> JS.Number) (key : A -> Z) (ok : A -> Prop).

(** On the elements of interest the comparator decides by the key,
    larger keys first. *)
Hypothesis cmp_key :
  forall x y, ok x -> ok y -> JS.isPositive (cmp x y) = (key x <? key y).

Lemma insertSorted_perm (x : A) (l : list A) :
  Permutation (JS.insertSorted cmp x l) (x :: l).
Proof.
  induction l as [|y r IH]; simpl; [reflexivity|].
  destruct (JS.isPositive (cmp x y)); [|reflexivity].
  rewrite IH. apply perm_swap.
Qed.

Lemma sort_perm (l : list A) : Permutation (JS.sort cmp l) l.
Proof.
  induction l as [|x l IH]; simpl; [reflexivity|].
  unfold JS.sort in *. simpl. rewrite insertSorted_perm. now rewrite IH.
Qed.

Lemma sort_ok (l : list A) : Forall ok l -> Forall ok (JS.sort cmp l).
Proof.
  intros H. eapply Permutation_Forall; [|exact H].
  symmetry. apply sort_perm.
Qed.

Lemma insertSorted_sorted (x : A) (l : list A) :
  ok x -> Forall ok l ->
  StronglySorted (fun a b => key b <= key a) l ->
  StronglySorted (fun a b => key b <= key a) (JS.insertSorted cmp x l).
Proof.
  intros Hx Hl Hs. induction Hs as [|y r Hr IH Hy]; simpl.
  - repeat constructor.
  - inversion Hl as [|? ? Hoy Hor]; subst.
    rewrite (cmp_key x y Hx Hoy).
    destruct (Z.ltb_spec (key x) (key y)) as [Hlt|Hge].
    + constructor; [apply IH; exact Hor|].
      eapply Permutation_Forall;
        [symmetry; apply insertSorted_perm|].
      constructor; [lia | exact Hy].
    + constructor; [constructor; assumption|].
      constructor; [exact Hge|].
      eapply Forall_impl; [exact Hy|]. simpl. intros b Hb. lia.
Qed.

Lemma sort_sorted (l : list A) :
  Forall ok l -> StronglySorted (fun a b => key b <= key a) (JS.sort cmp l).
Proof.
  induction l as [|x l IH]; intros H; [constructor|].
  inversion H as [|? ? Hx Hl]; subst.
  change (JS.sort cmp (x :: l)) with (JS.insertSorted cmp x (JS.sort cmp l)).
  apply insertSorted_sorted; [exact Hx | apply sort_ok; exact Hl | apply IH; exact Hl].
Qed.

(** Insertion never moves an element past one of equal key. *)
Lemma insertSorted_stable (k : Z) (x : A) (l : list A) :
  ok x -> Forall ok l ->
  List.filter (fun a => key a =? k) (JS.insertSorted cmp x l)
  = List.filter (fun a => key a =? k) (x :: l).
Proof.
  intros Hx Hl. induction Hl as [|y r Hy Hr IH]; [reflexivity|].
  cbn [JS.insertSorted]. rewrite (cmp_key x y Hx Hy).
  destruct (Z.ltb_spec (key x) (key y)) as [Hlt|Hge]; [|reflexivity].
  cbn [List.filter] in *. rewrite IH.
  destruct (Z.eqb_spec (key x) k), (Z.eqb_spec (key y) k); try reflexivity.
  lia.
Qed.

Lemma sort_stable (k : Z) (l : list A) :
  Forall ok l ->
  List.filter (fun a => key a =? k) (JS.sort cmp l)
  = List.filter (fun a => key a =? k) l.
Proof.
  induction l as [|x l IH]; intros H; [reflexivity|].
  inversion H as [|? ? Hx Hl]; subst.
  change (JS.sort cmp (x :: l)) with (JS.insertSorted cmp x (JS.sort cmp l)).
  rewrite insertSorted_stable by (try apply sort_ok; assumption).
  cbn [List.filter]. rewrite IH by exact Hl. reflexivity.
Qed.
End StableSort.

(** ** Recent records *)

Lemma recent_is_prefix (actors : list Actor) (folder : Folder) :
  _getRecentActors actors folder
  = firstn 3 (JS.sort recentCompare (List.filter (inFolder folder) actors)).
Proof.
  unfold _getRecentActors, JS.slice0.
  set (l := JS.sort recentCompare _).
  destruct (Nat.le_ge_cases 3 (length l)) as [H|H].
  - now rewrite Nat.min_l by exact H.
  - rewrite Nat.min_r by exact H. rewrite firstn_all.
    symmetry. apply firstn_all2. exact H.
Qed.

(** C6 (as amended): when the integers embedded in the ids of the folder's
    records are below 2^53, [_getRecentActors] returns the first three of
    the records sorted in descending order of that integer (no digit
    counting as 0), records of equal integer keeping their relative
    order; ids actor-9, actor-123, actor-45 give actor-123, actor-45,
    actor-9. *)
Theorem recent_actors_sorted (actors : list Actor) (folder : Folder) :
  Forall safeId (List.filter (inFolder folder) actors) ->
  (exists sorted : list Actor,
      Permutation sorted (List.filter (inFolder folder) actors)
      /\ descendingIds sorted
      /\ (forall k, withInteger k sorted
                    = withInteger k (List.filter (inFolder folder) actors))
      /\ _getRecentActors actors folder = firstn 3 sorted)
  /\ (length (_getRecentActors actors folder) <= 3)%nat
  /\ _getRecentActors [actor9; actor123; actor45] pcRecords
     = [actor123; actor45; actor9].
Proof.
  intros Hsafe. split; [|split].
  - exists (JS.sort recentCompare (List.filter (inFolder folder) actors)).
    split; [apply sort_perm|].
    split; [apply (sort_sorted recentCompare idInteger safeId recentCompare_safe);
            exact Hsafe|].
    split; [|apply recent_is_prefix].
    intros k.
    apply (sort_stable recentCompare idInteger safeId recentCompare_safe).
    exact Hsafe.
  - rewrite recent_is_prefix. rewrite length_firstn. lia.
  - vm_compute. reflexivity.
Qed.

Lemma recent_actors_sorted_witness :
  exists sorted : list Actor,
    Permutation sorted [actor45; actor9; actor123; actor9]
    /\ descendingIds sorted
    /\ _getRecentActors [actor45; actor9; actor123; actor9] pcRecords
       = firstn 3 sorted.
Proof.
  destruct (recent_actors_sorted [actor45; actor9; actor123; actor9] pcRecords)
    as [[sorted (Hp & Hs & _ & Hr)] _].
  - repeat constructor; vm_compute; reflexivity.
  - exists sorted. split; [exact Hp | split; [exact Hs | exact Hr]].
Defined.

(** Ids that differ only beyond the precision of a Number compare equal
    and keep their order, against the order of their integers. *)
Lemma recent_actors_rounding :
  _getRecentActors [actorBig0; actorBig1] pcRecords = [actorBig0; actorBig1]
  /\ idInteger actorBig0 < idInteger actorBig1
  /\ ~ descendingIds (_getRecentActors [actorBig0; actorBig1] pcRecords).
Proof.
  assert (E : _getRecentActors [actorBig0; actorBig1] pcRecords
              = [actorBig0; actorBig1]) by (vm_compute; reflexivity).
  split; [exact E|]. split; [vm_compute; reflexivity|].
  rewrite E. intros H. inversion H as [|? ? _ Hall]; subst.
  inversion Hall as [|? ? Hle _]; subst. vm_compute in Hle. apply Hle. reflexivity.
Qed.

(** ** The load cycle *)

Lemma set_dom_id (s : State) : set_dom (dom s) s = s.
Proof. destruct s; reflexivity. Qed.

Lemma tryLoad_cases (e : Env) (h : positive) (s : State) :
  (exists d, tryLoad e h s
             = Returned (set_isLoadingEntries false (clearTimeout h (set_dom d s)))
                        Aborted)
  \/ (exists d, tryLoad e h s
                = Returned (_finishLoading (finishedAt e) h true (set_dom d s))
                           Succeeded)
  \/ (exists d, tryLoad e h s = Thrown (set_dom d s)).
Proof.
  unfold tryLoad, _createEntriesList, _getPCRecordsFolder.
  destruct (JS.truthy (entriesList (dom s))) eqn:Hl.
  - rewrite Hl. cbn [negb].
    destruct (game_folders e) as [fs|]; [|right; right; eexists; reflexivity].
    destruct (List.find _ fs) as [f|]; [|right; left; eexists; reflexivity].
    destruct (game_actors e) as [actors|]; [|right; right; eexists; reflexivity].
    destruct (negb (_hasActorsInFolder actors f));
      [right; left; eexists; reflexivity|].
    destruct (renderThrows e);
      [right; right; eexists; reflexivity | right; left; eexists; reflexivity].
  - destruct (sectionPresent (dom s)) eqn:Hs.
    + change (JS.truthy (entriesList (dom (appendEntriesList s)))) with true.
      cbn [negb].
      destruct (game_folders e) as [fs|]; [|right; right; eexists; reflexivity].
      destruct (List.find _ fs) as [f|]; [|right; left; eexists; reflexivity].
      destruct (game_actors e) as [actors|]; [|right; right; eexists; reflexivity].
      destruct (negb (_hasActorsInFolder actors f));
        [right; left; eexists; reflexivity|].
      destruct (renderThrows e);
        [right; right; eexists; reflexivity | right; left; eexists; reflexivity].
    + rewrite Hl. cbn [negb]. left. exists (dom s). now rewrite set_dom_id.
Qed.

Lemma load_step (e : Env) (s s' : State) (o : Outcome) :
  loadLastEntries e s = (s', o) -> LoadStep e s s' o.
Proof.
  unfold loadLastEntries.
  destruct (isLoadingEntries s) eqn:Hl.
  { intros [= <- <-]. now constructor. }
  destruct (Z.ltb_spec (now e - lastSuccessfulLoad s) 300) as [Hlt|Hge].
  { intros [= <- <-]. now constructor. }
  assert (Hst : starts e s) by (split; assumption).
  change (setTimeout (now e) 3000 (set_isLoadingEntries true s))
    with (nextTimerId s, armWatchdog e s).
  cbv iota beta.
  destruct (tryLoad_cases e (nextTimerId s) (armWatchdog e s))
    as [[d ->]|[[d ->]|[d ->]]].
  - intros [= <- <-]. now constructor.
  - intros [= <- <-]. now constructor.
  - unfold catchLoad. destruct (placeholderThrows e).
    + intros [= <- <-]. now constructor.
    + intros [= <- <-]. apply (LoadFailed e s
        {| sectionPresent := sectionPresent d;
           entriesList := withRows [errorRow] <$> entriesList d |}).
      exact Hst.
Qed.

(** *** What the completion handlers leave alone *)

Lemma reschedule_frame (p : Z) (s : State) :
  isLoadingEntries (reschedule p s) = isLoadingEntries s
  /\ timeouts (reschedule p s) = timeouts s
  /\ consecutiveErrors (reschedule p s) = consecutiveErrors s
  /\ lastSuccessfulLoad (reschedule p s) = lastSuccessfulLoad s
  /\ dom (reschedule p s) = dom s.
Proof. unfold reschedule. destruct (refreshIntervalId s); repeat split. Qed.

Lemma finishLoading_flag (t : Z) (h : positive) (ok : bool) (s : State) :
  isLoadingEntries (_finishLoading t h ok s) = false
  /\ timeouts (_finishLoading t h ok s) = delete h (timeouts s)
  /\ dom (_finishLoading t h ok s) = dom s.
Proof.
  unfold _finishLoading. destruct ok; [|repeat split].
  match goal with |- context [if ?c then _ else _] => destruct c end;
    [|repeat split].
  destruct (reschedule_frame 500
    (set_consecutiveErrors 0
       (set_lastSuccessfulLoad t
          (set_isLoadingEntries false (clearTimeout h s)))))
    as (-> & -> & _ & _ & ->).
  repeat split.
Qed.

Lemma watchdogCallback_flag (s : State) :
  isLoadingEntries (watchdogCallback s) = false
  /\ timeouts (watchdogCallback s) = timeouts s
  /\ consecutiveErrors (watchdogCallback s) = consecutiveErrors s + 1
  /\ dom (watchdogCallback s) = dom s.
Proof.
  unfold watchdogCallback.
  match goal with |- context [if ?c then _ else _] => destruct c end;
    [|repeat split].
  destruct (reschedule_frame 2000
    (set_consecutiveErrors (consecutiveErrors (set_isLoadingEntries false s) + 1)
       (set_isLoadingEntries false s)))
    as (-> & -> & -> & _ & ->).
  repeat split.
Qed.

(** *** Single flight *)

Lemma SingleFlight_initial (d : Dom) : SingleFlight (initial d).
Proof. reflexivity. Qed.

(** Only the flag and the table of timeouts matter. *)
Lemma SingleFlight_ext (s s' : State) :
  isLoadingEntries s' = isLoadingEntries s -> timeouts s' = timeouts s ->
  SingleFlight s -> SingleFlight s'.
Proof. unfold SingleFlight. intros -> ->. trivial. Qed.

Lemma SingleFlight_idle (s : State) :
  SingleFlight s -> isLoadingEntries s = false -> timeouts s = ∅.
Proof. unfold SingleFlight. intros H E. now rewrite E in H. Qed.

Lemma LoadStep_SingleFlight (e : Env) (s s' : State) (o : Outcome) :
  LoadStep e s s' o -> SingleFlight s -> SingleFlight s'.
Proof.
  intros Hstep Hinv.
  destruct Hstep as [| |d [Hl _]|d [Hl _]|d [Hl _]|d [Hl _]]; try exact Hinv;
    pose proof (SingleFlight_idle s Hinv Hl) as Hempty; unfold SingleFlight.
  - cbn. rewrite Hempty, delete_insert_eq. apply delete_empty.
  - destruct (finishLoading_flag (finishedAt e) (nextTimerId s) true
                (set_dom d (armWatchdog e s))) as (-> & -> & _).
    cbn. rewrite Hempty, delete_insert_eq. apply delete_empty.
  - destruct (finishLoading_flag (finishedAt e) (nextTimerId s) false
                (set_dom d (armWatchdog e s))) as (-> & -> & _).
    cbn. rewrite Hempty, delete_insert_eq. apply delete_empty.
  - cbn. rewrite Hempty. eauto.
Qed.

Lemma load_SingleFlight (e : Env) (s : State) :
  SingleFlight s -> SingleFlight (fst (loadLastEntries e s)).
Proof.
  destruct (loadLastEntries e s) as [s' o] eqn:E.
  apply (LoadStep_SingleFlight e s s' o), load_step, E.
Qed.

Lemma force_SingleFlight (e : Env) (s : State) :
  SingleFlight s -> SingleFlight (fst (forceDisplayLastEntries e s)).
Proof.
  intros Hinv. unfold forceDisplayLastEntries.
  destruct (negb (interfaceActive e)); [exact Hinv|].
  destruct (sectionPresent (dom s)); [|exact Hinv].
  set (s1 := onList applyStyle _).
  assert (H1 : SingleFlight s1).
  { subst s1. destruct (JS.truthy (entriesList (dom s)));
      (eapply SingleFlight_ext; [| |exact Hinv]; reflexivity). }
  destruct (entriesList (dom s1)) as [l|]; [|exact H1].
  destruct (length (rows l) =? 0)%nat; [|exact H1].
  pose proof (load_SingleFlight e s1 H1) as H2.
  destruct (loadLastEntries e s1); exact H2.
Qed.

Lemma fireTimeout_SingleFlight (h : positive) (t : Z) (s s' : State) :
  fireTimeout h t s = Some s' -> SingleFlight s -> SingleFlight s'.
Proof.
  unfold fireTimeout. intros Hf Hinv.
  destruct (timeouts s !! h) as [due|] eqn:Hh; [|discriminate].
  destruct (due <=? t); [|discriminate]. injection Hf as <-.
  unfold SingleFlight in *.
  destruct (watchdogCallback_flag (clearTimeout h s)) as (-> & -> & _).
  cbn. destruct (isLoadingEntries s).
  - destruct Hinv as (h0 & due0 & Ht). rewrite Ht in *.
    apply lookup_singleton_Some in Hh as [<- _]. apply delete_singleton_eq.
  - rewrite Hinv in Hh. now rewrite lookup_empty in Hh.
Qed.

Lemma step_SingleFlight (ev : Event) (s : State) :
  SingleFlight s -> SingleFlight (step ev s).
Proof.
  intros Hinv. destruct ev as [e|e|h e e'|h t| | | |d]; cbn [step].
  - now apply load_SingleFlight.
  - now apply force_SingleFlight.
  - unfold fireInterval. destruct (intervals s !! h) as [[p cb]|]; [|exact Hinv].
    unfold tick. destruct (interfaceActive e); [|exact Hinv].
    pose proof (load_SingleFlight e s Hinv) as H1.
    destruct (loadLastEntries e s) as [s1 o]. cbn [fst] in H1.
    destruct cb; [|exact H1].
    destruct o; try exact H1; now apply force_SingleFlight.
  - destruct (fireTimeout h t s) as [s'|] eqn:E; [|exact Hinv].
    now apply (fireTimeout_SingleFlight h t s s').
  - unfold stopRefresh. destruct (refreshIntervalId s); exact Hinv.
  - unfold startRefresh. destruct (refreshIntervalId s); exact Hinv.
  - unfold renewRefresh. destruct (refreshIntervalId s); exact Hinv.
  - exact Hinv.
Qed.

Lemma run_SingleFlight (evs : list Event) (s : State) :
  SingleFlight s -> SingleFlight (run evs s).
Proof.
  revert s. induction evs as [|ev evs IH]; intros s Hinv; [exact Hinv|].
  apply IH, step_SingleFlight, Hinv.
Qed.

(** C3: after any sequence of events (calls from hooks, forced displays,
    interval ticks, watchdog firings, stops and starts of the timer) at
    most one load cycle is in flight, [isLoadingEntries] is true exactly
    while one is, and a call made then returns at once without effect.
    A cycle is in flight only from its start to its completion: a call
    that is skipped changes nothing; a call that runs a cycle to its end
    (aborted, succeeded or failed) leaves the flag false with no cycle
    in flight; only a cycle left by an exception stays in flight, flag
    true; and a watchdog fires only while the flag is true, leaves it
    false with no cycle in flight, and can fire as soon as it is due. *)
Theorem single_flight (d : Dom) (evs : list Event) :
  (inFlight (run evs (initial d)) <= 1)%nat
  /\ (isLoadingEntries (run evs (initial d)) = true
      <-> inFlight (run evs (initial d)) = 1%nat)
  /\ (forall e : Env,
      isLoadingEntries (run evs (initial d)) = true ->
      loadLastEntries e (run evs (initial d))
      = (run evs (initial d), SkippedInFlight))
  /\ (forall (e : Env) (s' : State) (o : Outcome),
      loadLastEntries e (run evs (initial d)) = (s', o) ->
      match o with
      | SkippedInFlight | SkippedTooFrequent => s' = run evs (initial d)
      | Aborted | Succeeded | Failed =>
          isLoadingEntries (run evs (initial d)) = false
          /\ isLoadingEntries s' = false /\ inFlight s' = 0%nat
      | Escaped =>
          isLoadingEntries (run evs (initial d)) = false
          /\ isLoadingEntries s' = true /\ inFlight s' = 1%nat
      end)
  /\ (forall (h : positive) (t : Z) (s' : State),
      fireTimeout h t (run evs (initial d)) = Some s' ->
      isLoadingEntries (run evs (initial d)) = true
      /\ isLoadingEntries s' = false /\ inFlight s' = 0%nat)
  /\ (isLoadingEntries (run evs (initial d)) = true ->
      exists (h : positive) (due : Z),
        timeouts (run evs (initial d)) = {[h := due]}
        /\ forall t, due <= t ->
            exists s', fireTimeout h t (run evs (initial d)) = Some s'
                       /\ isLoadingEntries s' = false).
Proof.
  pose proof (run_SingleFlight evs (initial d) (SingleFlight_initial d)) as Hinv.
  set (s := run evs (initial d)) in *.
  assert (Hsize : forall s0, SingleFlight s0 ->
            inFlight s0 = if isLoadingEntries s0 then 1%nat else 0%nat).
  { intros s0 H0. unfold SingleFlight, inFlight in *.
    destruct (isLoadingEntries s0).
    - destruct H0 as (h & due & ->). apply map_size_singleton.
    - rewrite H0. apply map_size_empty. }
  split; [|split; [|split; [|split; [|split]]]].
  - rewrite (Hsize s Hinv). destruct (isLoadingEntries s); lia.
  - rewrite (Hsize s Hinv). destruct (isLoadingEntries s);
      split; intros; (reflexivity || discriminate).
  - intros e Hl. unfold loadLastEntries. now rewrite Hl.
  - intros e s' o Hload.
    pose proof (load_step e s s' o Hload) as Hstep.
    pose proof (LoadStep_SingleFlight e s s' o Hstep Hinv) as Hinv'.
    pose proof (Hsize s' Hinv') as Hs'.
    inversion Hstep as [| |d0 [Hl _]|d0 [Hl _]|d0 [Hl _]|d0 [Hl _]]; subst;
      try reflexivity.
    + split; [exact Hl|]. now split.
    + destruct (finishLoading_flag (finishedAt e) (nextTimerId s) true
                  (set_dom d0 (armWatchdog e s))) as (Hf & _ & _).
      rewrite Hf in Hs'. split; [exact Hl|]. now split.
    + split; [exact Hl|]. now split.
    + split; [exact Hl|]. now split.
  - intros h t s' Hfire.
    pose proof (fireTimeout_SingleFlight h t s s' Hfire Hinv) as Hinv'.
    pose proof (Hsize s' Hinv') as Hs'.
    assert (Hf : isLoadingEntries s' = false).
    { unfold fireTimeout in Hfire.
      destruct (timeouts s !! h); [|discriminate].
      destruct (_ <=? t); [|discriminate]. injection Hfire as <-.
      apply watchdogCallback_flag. }
    rewrite Hf in Hs'. split; [|now split].
    destruct (isLoadingEntries s) eqn:Hl; [reflexivity|].
    unfold SingleFlight in Hinv. rewrite Hl in Hinv.
    unfold fireTimeout in Hfire. rewrite Hinv, lookup_empty in Hfire. discriminate.
  - intros Hl. unfold SingleFlight in Hinv. rewrite Hl in Hinv.
    destruct Hinv as (h & due & Ht). exists h, due. split; [exact Ht|].
    intros t Hdue. unfold fireTimeout. rewrite Ht, lookup_singleton_eq.
    destruct (Z.leb_spec due t); [|lia].
    eexists. split; [reflexivity|]. apply watchdogCallback_flag.
Qed.

Lemma single_flight_witness :
  isLoadingEntries (run [StartRefresh; CallLoad (worldStuck 10000)] (initial domWithList))
  = true
  /\ loadLastEntries (world 10400)
       (run [StartRefresh; CallLoad (worldStuck 10000)] (initial domWithList))
     = (run [StartRefresh; CallLoad (worldStuck 10000)] (initial domWithList),
        SkippedInFlight)
  /\ isLoadingEntries
       (fst (loadLastEntries (world 10000) (run [StartRefresh] (initial domWithList))))
     = false.
Proof.
  assert (H : isLoadingEntries
                (run [StartRefresh; CallLoad (worldStuck 10000)] (initial domWithList))
              = true) by (vm_compute; reflexivity).
  split; [exact H|]. split.
  - destruct (single_flight domWithList [StartRefresh; CallLoad (worldStuck 10000)])
      as (_ & _ & Hskip & _).
    exact (Hskip (world 10400) H).
  - destruct (single_flight domWithList [StartRefresh]) as (_ & _ & _ & Hend & _).
    destruct (loadLastEntries (world 10000) (run [StartRefresh] (initial domWithList)))
      as [s' o] eqn:E.
    assert (Ho : o = Succeeded) by (vm_compute in E; congruence).
    subst o. apply (Hend (world 10000) s' Succeeded E).
Defined.

(** ** Completion *)

Lemma finishLoading_success (t : Z) (h : positive) (s : State) :
  lastSuccessfulLoad (_finishLoading t h true s) = t
  /\ consecutiveErrors (_finishLoading t h true s) = 0
  /\ match refreshIntervalId s with
     | Some old =>
         refreshIntervalId (_finishLoading t h true s) = Some (nextTimerId s)
         /\ intervals (_finishLoading t h true s)
            = <[nextTimerId s := (500, RefreshOnly)]> (delete old (intervals s))
     | None =>
         refreshIntervalId (_finishLoading t h true s) = None
         /\ intervals (_finishLoading t h true s) = intervals s
     end.
Proof.
  unfold _finishLoading, reschedule. cbn.
  destruct (refreshIntervalId s) eqn:E; cbn; rewrite ?E; repeat split.
Qed.

Lemma finishLoading_failure (t : Z) (h : positive) (s : State) :
  lastSuccessfulLoad (_finishLoading t h false s) = lastSuccessfulLoad s
  /\ consecutiveErrors (_finishLoading t h false s) = consecutiveErrors s + 1
  /\ refreshIntervalId (_finishLoading t h false s) = refreshIntervalId s
  /\ intervals (_finishLoading t h false s) = intervals s.
Proof. repeat split. Qed.

Lemma watchdogCallback_timer (s : State) :
  match refreshIntervalId s with
  | Some old =>
      if 3 <? consecutiveErrors s + 1
      then refreshIntervalId (watchdogCallback s) = Some (nextTimerId s)
           /\ intervals (watchdogCallback s)
              = <[nextTimerId s := (2000, RefreshOnly)]> (delete old (intervals s))
      else refreshIntervalId (watchdogCallback s) = Some old
           /\ intervals (watchdogCallback s) = intervals s
  | None =>
      refreshIntervalId (watchdogCallback s) = None
      /\ intervals (watchdogCallback s) = intervals s
  end.
Proof.
  unfold watchdogCallback, reschedule. cbn.
  destruct (refreshIntervalId s) eqn:E; cbn;
    destruct (3 <? consecutiveErrors s + 1); cbn; rewrite ?E; repeat split.
Qed.

(** C4: a load cycle that succeeds leaves its watchdog cancelled,
    [isLoadingEntries] false, [lastSuccessfulLoad] at the current time and
    [consecutiveErrors] at 0; a recurring timer that ran at 2000ms is
    cleared and replaced by one at 500ms. *)
Theorem success_resets (e : Env) (s s' : State) :
  loadLastEntries e s = (s', Succeeded) ->
  timeouts s' !! nextTimerId s = None
  /\ isLoadingEntries s' = false
  /\ lastSuccessfulLoad s' = finishedAt e
  /\ consecutiveErrors s' = 0
  /\ (cadence s = Some 2000 -> cadence s' = Some 500)
  /\ (forall old, refreshIntervalId s = Some old ->
      exists h, refreshIntervalId s' = Some h
                /\ intervals s' = <[h := (500, RefreshOnly)]> (delete old (intervals s))).
Proof.
  intros Hload. apply load_step in Hload.
  inversion Hload as [| | | d Hst Hs' | |]; subst. clear Hload.
  set (s1 := set_dom d (armWatchdog e s)).
  destruct (finishLoading_flag (finishedAt e) (nextTimerId s) true s1)
    as (Hflag & Htimeouts & _).
  destruct (finishLoading_success (finishedAt e) (nextTimerId s) s1)
    as (Hlast & Herr & Htimer).
  assert (Hnew : forall old, refreshIntervalId s = Some old ->
            refreshIntervalId (_finishLoading (finishedAt e) (nextTimerId s) true s1)
            = Some (Pos.succ (nextTimerId s))
            /\ intervals (_finishLoading (finishedAt e) (nextTimerId s) true s1)
               = <[Pos.succ (nextTimerId s) := (500, RefreshOnly)]>
                   (delete old (intervals s))).
  { intros old Hold.
    change (refreshIntervalId s1) with (refreshIntervalId s) in Htimer.
    rewrite Hold in Htimer. exact Htimer. }
  split; [rewrite Htimeouts; apply lookup_delete_eq|].
  split; [exact Hflag|]. split; [exact Hlast|]. split; [exact Herr|].
  split.
  - unfold cadence. destruct (refreshIntervalId s) as [old|]; [|discriminate].
    intros _. destruct (Hnew old eq_refl) as [-> ->]. cbn.
    now rewrite lookup_insert_eq.
  - intros old Hold. exists (Pos.succ (nextTimerId s)). now apply Hnew.
Qed.

Lemma success_resets_witness :
  cadence degraded = Some 2000
  /\ cadence (fst (loadLastEntries (world 10000) degraded)) = Some 500
  /\ consecutiveErrors (fst (loadLastEntries (world 10000) degraded)) = 0.
Proof.
  assert (E : loadLastEntries (world 10000) degraded
              = (fst (loadLastEntries (world 10000) degraded), Succeeded))
    by (vm_compute; reflexivity).
  destruct (success_resets (world 10000) degraded _ E)
    as (_ & _ & _ & Herr & Hcad & _).
  assert (Hd : cadence degraded = Some 2000) by (vm_compute; reflexivity).
  split; [exact Hd|]. split; [exact (Hcad Hd) | exact Herr].
Defined.

(** C8: once [refreshIntervalId] is null, no completion of a load cycle
    (neither [_finishLoading], on success or failure, nor the watchdog
    callback, nor a whole call of [loadLastEntries] or a firing timeout)
    sets it again or changes the table of recurring timers. *)
Theorem stopped_timer_stays_stopped (s : State) :
  refreshIntervalId s = None ->
  (forall t h ok,
      refreshIntervalId (_finishLoading t h ok s) = None
      /\ intervals (_finishLoading t h ok s) = intervals s)
  /\ (refreshIntervalId (watchdogCallback s) = None
      /\ intervals (watchdogCallback s) = intervals s)
  /\ (forall e s' o, loadLastEntries e s = (s', o) ->
      refreshIntervalId s' = None /\ intervals s' = intervals s)
  /\ (forall h t s', fireTimeout h t s = Some s' ->
      refreshIntervalId s' = None /\ intervals s' = intervals s).
Proof.
  intros Hnull.
  split; [|split; [|split]].
  - intros t h ok. destruct ok.
    + pose proof (finishLoading_success t h s) as (_ & _ & H).
      rewrite Hnull in H. exact H.
    + pose proof (finishLoading_failure t h s) as (_ & _ & -> & ->). now split.
  - pose proof (watchdogCallback_timer s) as H. rewrite Hnull in H. exact H.
  - intros e s' o Hload. apply load_step in Hload.
    inversion Hload as [| |d Hst|d Hst|d Hst|d Hst]; subst; try (now split).
    pose proof (finishLoading_success (finishedAt e) (nextTimerId s)
                  (set_dom d (armWatchdog e s))) as (_ & _ & H).
    change (refreshIntervalId (set_dom d (armWatchdog e s)))
      with (refreshIntervalId s) in H. rewrite Hnull in H. exact H.
  - intros h t s'. unfold fireTimeout.
    destruct (timeouts s !! h) as [due|]; [|discriminate].
    destruct (due <=? t); [|discriminate]. intros [= <-].
    pose proof (watchdogCallback_timer (clearTimeout h s)) as H.
    change (refreshIntervalId (clearTimeout h s)) with (refreshIntervalId s) in H.
    rewrite Hnull in H. exact H.
Qed.

Lemma stopped_timer_stays_stopped_witness :
  isLoadingEntries stoppedInFlight = true
  /\ refreshIntervalId stoppedInFlight = None
  /\ exists s', fireTimeout 2 13000 stoppedInFlight = Some s'
                /\ refreshIntervalId s' = None
                /\ intervals s' = intervals stoppedInFlight.
Proof.
  assert (Hnull : refreshIntervalId stoppedInFlight = None)
    by (vm_compute; reflexivity).
  split; [vm_compute; reflexivity|]. split; [exact Hnull|].
  destruct (fireTimeout 2 13000 stoppedInFlight) as [s'|] eqn:E;
    [|vm_compute in E; discriminate].
  exists s'. split; [reflexivity|].
  destruct (stopped_timer_stays_stopped stoppedInFlight Hnull) as (_ & _ & _ & H).
  exact (H 2%positive 13000 s' E).
Defined.

(** ** The watchdog *)

(** While a cycle is in flight nothing but a firing timeout changes the
    flag, the error count or the armed timeouts. *)
Lemma load_while_loading (e : Env) (s : State) :
  isLoadingEntries s = true -> loadLastEntries e s = (s, SkippedInFlight).
Proof. intros H. unfold loadLastEntries. now rewrite H. Qed.

Lemma force_while_loading (e : Env) (s : State) :
  isLoadingEntries s = true ->
  isLoadingEntries (fst (forceDisplayLastEntries e s)) = true
  /\ consecutiveErrors (fst (forceDisplayLastEntries e s)) = consecutiveErrors s
  /\ timeouts (fst (forceDisplayLastEntries e s)) = timeouts s.
Proof.
  intros Hl. unfold forceDisplayLastEntries.
  destruct (negb (interfaceActive e)); [now repeat split|].
  destruct (sectionPresent (dom s)); [|now repeat split].
  set (s1 := onList applyStyle _).
  assert (H1 : isLoadingEntries s1 = true /\ consecutiveErrors s1 = consecutiveErrors s
               /\ timeouts s1 = timeouts s).
  { subst s1. destruct (JS.truthy (entriesList (dom s))); now repeat split. }
  destruct (entriesList (dom s1)) as [l|]; [|exact H1].
  destruct (length (rows l) =? 0)%nat; [|exact H1].
  rewrite load_while_loading by apply H1. exact H1.
Qed.

Lemma step_while_loading (ev : Event) (s : State) :
  isLoadingEntries s = true -> isTimeoutEvent ev = false ->
  isLoadingEntries (step ev s) = true
  /\ consecutiveErrors (step ev s) = consecutiveErrors s
  /\ timeouts (step ev s) = timeouts s.
Proof.
  intros Hl Hev. destruct ev as [e|e|h e e'|h t| | | |d]; cbn [step];
    try discriminate.
  - rewrite load_while_loading by exact Hl. now repeat split.
  - now apply force_while_loading.
  - unfold fireInterval. destruct (intervals s !! h) as [[p cb]|]; [|now repeat split].
    unfold tick. destruct (interfaceActive e); [|now repeat split].
    rewrite load_while_loading by exact Hl.
    destruct cb; [now apply force_while_loading | now repeat split].
  - unfold stopRefresh. destruct (refreshIntervalId s); now repeat split.
  - unfold startRefresh. destruct (refreshIntervalId s); now repeat split.
  - unfold renewRefresh. destruct (refreshIntervalId s); now repeat split.
  - now repeat split.
Qed.

Lemma run_while_loading (evs : list Event) (s : State) :
  isLoadingEntries s = true ->
  forallb (fun ev => negb (isTimeoutEvent ev)) evs = true ->
  isLoadingEntries (run evs s) = true
  /\ consecutiveErrors (run evs s) = consecutiveErrors s
  /\ timeouts (run evs s) = timeouts s.
Proof.
  revert s. induction evs as [|ev evs IH]; intros s Hl Hevs; [now repeat split|].
  cbn [forallb] in Hevs. apply andb_prop in Hevs as [Hev Hevs].
  apply negb_true_iff in Hev.
  destruct (step_while_loading ev s Hl Hev) as (Hl' & Hc' & Ht').
  destruct (IH (step ev s) Hl' Hevs) as (? & ? & ?).
  change (run (ev :: evs) s) with (run evs (step ev s)).
  repeat split; congruence.
Qed.

(** A cycle that ends in the function itself leaves no watchdog behind. *)
Lemma completed_cycle_disarms (e : Env) (s s' : State) (o : Outcome) :
  loadLastEntries e s = (s', o) ->
  o = Aborted \/ o = Succeeded \/ o = Failed ->
  timeouts s' !! nextTimerId s = None.
Proof.
  intros Hload Ho. apply load_step in Hload.
  inversion Hload as [| |d Hst|d Hst|d Hst|d Hst]; subst;
    try (destruct Ho as [?|[?|?]]; discriminate).
  - cbn. apply lookup_delete_eq.
  - destruct (finishLoading_flag (finishedAt e) (nextTimerId s) true
                (set_dom d (armWatchdog e s))) as (_ & -> & _).
    apply lookup_delete_eq.
  - cbn. apply lookup_delete_eq.
Qed.

(** C5: a cycle started at [now e] that ends without any completion
    handler keeps [isLoadingEntries] true and the error count unchanged
    through every later event other than a timeout, its watchdog cannot
    fire before [now e + 3000], and fired at [now e + 3000] it sets
    [isLoadingEntries] to false, adds exactly one to [consecutiveErrors]
    and is spent; a cycle that completes leaves its watchdog unable to
    fire at any time. *)
Theorem watchdog_ends_stuck_cycle (e : Env) (s s' : State) (evs : list Event) :
  loadLastEntries e s = (s', Escaped) ->
  forallb (fun ev => negb (isTimeoutEvent ev)) evs = true ->
  isLoadingEntries (run evs s') = true
  /\ consecutiveErrors (run evs s') = consecutiveErrors s
  /\ (forall t, t < now e + 3000 -> fireTimeout (nextTimerId s) t (run evs s') = None)
  /\ (exists s2, fireTimeout (nextTimerId s) (now e + 3000) (run evs s') = Some s2
                 /\ isLoadingEntries s2 = false
                 /\ consecutiveErrors s2 = consecutiveErrors s + 1
                 /\ forall t, fireTimeout (nextTimerId s) t s2 = None)
  /\ (forall e0 s0 s0' o,
         loadLastEntries e0 s0 = (s0', o) ->
         o = Aborted \/ o = Succeeded \/ o = Failed ->
         forall t, fireTimeout (nextTimerId s0) t s0' = None).
Proof.
  intros Hload Hevs. apply load_step in Hload.
  inversion Hload as [| | | | |d Hst]; subst. clear Hload.
  set (s1 := set_dom d (armWatchdog e s)) in *.
  assert (Hl1 : isLoadingEntries s1 = true) by reflexivity.
  destruct (run_while_loading evs s1 Hl1 Hevs) as (Hl & Hc & Ht).
  assert (Harmed : timeouts (run evs s1) !! nextTimerId s = Some (now e + 3000)).
  { rewrite Ht. cbn. apply lookup_insert_eq. }
  split; [exact Hl|]. split; [exact Hc|]. split; [|split].
  - intros t Hlt. unfold fireTimeout. rewrite Harmed.
    destruct (Z.leb_spec (now e + 3000) t); [lia | reflexivity].
  - unfold fireTimeout. rewrite Harmed, Z.leb_refl.
    eexists. split; [reflexivity|].
    destruct (watchdogCallback_flag (clearTimeout (nextTimerId s) (run evs s1)))
      as (Hf & Hto & Hce & _).
    split; [exact Hf|]. split; [rewrite Hce; cbn; rewrite Hc; reflexivity|].
    intros t. rewrite Hto. cbn. now rewrite lookup_delete_eq.
  - intros e0 s0 s0' o Hl0 Ho t. unfold fireTimeout.
    now rewrite (completed_cycle_disarms e0 s0 s0' o Hl0 Ho).
Qed.

Lemma watchdog_ends_stuck_cycle_witness :
  isLoadingEntries (run [CallLoad (world 10400); StopRefresh] stuckInFlight) = true
  /\ exists s2,
       fireTimeout 2 13000 (run [CallLoad (world 10400); StopRefresh] stuckInFlight)
       = Some s2
       /\ isLoadingEntries s2 = false
       /\ consecutiveErrors s2 = 1.
Proof.
  assert (E : loadLastEntries (worldStuck 10000) running = (stuckInFlight, Escaped))
    by (vm_compute; reflexivity).
  destruct (watchdog_ends_stuck_cycle (worldStuck 10000) running stuckInFlight
              [CallLoad (world 10400); StopRefresh] E eq_refl)
    as (Hl & _ & _ & (s2 & Hfire & Hl2 & Hc2 & _) & _).
  split; [exact Hl|]. exists s2. split; [exact Hfire|]. split; [exact Hl2|exact Hc2].
Defined.

(** ** Debounce *)

Lemma load_too_frequent (e : Env) (s : State) :
  isLoadingEntries s = false -> now e - lastSuccessfulLoad s < 300 ->
  loadLastEntries e s = (s, SkippedTooFrequent).
Proof.
  intros Hl Hlt. unfold loadLastEntries. rewrite Hl.
  destruct (Z.ltb_spec (now e - lastSuccessfulLoad s) 300); [reflexivity | lia].
Qed.

Lemma load_starts (e : Env) (s : State) :
  starts e s ->
  loadLastEntries e s
  = match tryLoad e (nextTimerId s) (armWatchdog e s) with
    | Returned s' o => (s', o)
    | Thrown s' => catchLoad e (nextTimerId s) s'
    end.
Proof.
  intros [Hl Hge]. unfold loadLastEntries. rewrite Hl.
  destruct (Z.ltb_spec (now e - lastSuccessfulLoad s) 300); [lia | reflexivity].
Qed.

Lemma load_success_fields (e : Env) (s s' : State) :
  loadLastEntries e s = (s', Succeeded) ->
  isLoadingEntries s' = false
  /\ lastSuccessfulLoad s' = finishedAt e
  /\ consecutiveErrors s' = 0.
Proof.
  intros Hload. apply load_step in Hload.
  inversion Hload as [| | | d Hst Hs' | |]; subst.
  destruct (finishLoading_flag (finishedAt e) (nextTimerId s) true
              (set_dom d (armWatchdog e s))) as (Hflag & _ & _).
  destruct (finishLoading_success (finishedAt e) (nextTimerId s)
              (set_dom d (armWatchdog e s))) as (Hlast & Herr & _).
  repeat split; assumption.
Qed.

(** C2 (as amended): of two calls less than 300ms apart, when the earlier
    one runs a load cycle that succeeds, the later one returns at once
    without loading and leaves the state as it is. *)
Theorem debounce_after_success (e1 e2 : Env) (s s1 : State) :
  loadLastEntries e1 s = (s1, Succeeded) ->
  now e1 <= finishedAt e1 ->
  now e2 - now e1 < 300 ->
  loadLastEntries e2 s1 = (s1, SkippedTooFrequent).
Proof.
  intros Hload Hclock Hclose.
  destruct (load_success_fields e1 s s1 Hload) as (Hl & Hlast & _).
  apply load_too_frequent; [exact Hl | rewrite Hlast; lia].
Qed.

Lemma debounce_after_success_witness :
  loadLastEntries (world 10100)
    (fst (loadLastEntries (world 10000) running))
  = (fst (loadLastEntries (world 10000) running), SkippedTooFrequent).
Proof.
  apply (debounce_after_success (world 10000) (world 10100) running).
  - vm_compute. reflexivity.
  - vm_compute. discriminate.
  - vm_compute. reflexivity.
Defined.

(** Two calls 100ms apart that both run a load cycle: the earlier one
    fails, so the time of the last successful load does not move. *)
Lemma debounce_not_after_failure :
  now (world 10100) - now (worldDown 10000) < 300
  /\ snd (loadLastEntries (worldDown 10000) running) = Failed
  /\ snd (loadLastEntries (world 10100)
            (fst (loadLastEntries (worldDown 10000) running))) = Succeeded.
Proof. vm_compute. repeat split; reflexivity. Qed.

(** ** An empty folder *)

Lemma tryLoad_noEntries (e : Env) (h : positive) (s : State) :
  listAvailable s = true -> findsNoRecords e ->
  exists s0, tryLoad e h s
             = Returned (_finishLoading (finishedAt e) h true s0) Succeeded
             /\ renderedRows s0 = [noEntriesRow].
Proof.
  unfold listAvailable, findsNoRecords, tryLoad, _createEntriesList.
  intros Hav Hfind.
  set (s1 := if JS.truthy (entriesList (dom s)) then s
             else if sectionPresent (dom s) then appendEntriesList s else s).
  assert (H1 : exists l, entriesList (dom s1) = Some l).
  { subst s1. destruct (entriesList (dom s)) as [l|] eqn:El; cbn.
    - rewrite El. eauto.
    - cbn in Hav. rewrite Hav. cbn. eauto. }
  destruct H1 as [l Hl1]. rewrite Hl1. cbn [JS.truthy negb].
  assert (Hrows : renderedRows
            (onList (appendRow noEntriesRow)
               (onList (withRows []) (onList applyStyle s1))) = [noEntriesRow]).
  { unfold renderedRows. cbn. rewrite Hl1. reflexivity. }
  destruct (_getPCRecordsFolder e) as [[f|]|]; [| |contradiction].
  - destruct (game_actors e) as [actors|]; [|contradiction].
    rewrite Hfind. cbn [negb]. eexists. split; [reflexivity | exact Hrows].
  - eexists. split; [reflexivity | exact Hrows].
Qed.

(** C10: a load cycle that reaches the folder test and finds no PC Records
    folder, or none of its records, ends as a success: the list shows the
    single row "No recent entries found", [lastSuccessfulLoad] is the
    current time, [consecutiveErrors] is 0, and any call made less than
    300ms after that time returns at once without loading. *)
Theorem no_records_is_success (e : Env) (s : State) :
  starts e s -> listAvailable s = true -> findsNoRecords e ->
  exists s', loadLastEntries e s = (s', Succeeded)
             /\ renderedRows s' = [noEntriesRow]
             /\ lastSuccessfulLoad s' = finishedAt e
             /\ consecutiveErrors s' = 0
             /\ forall e', now e' - finishedAt e < 300 ->
                           loadLastEntries e' s' = (s', SkippedTooFrequent).
Proof.
  intros Hst Hav Hfind. rewrite (load_starts e s Hst).
  destruct (tryLoad_noEntries e (nextTimerId s) (armWatchdog e s)) as (s0 & -> & Hrows);
    [exact Hav | exact Hfind |].
  eexists. split; [reflexivity|].
  destruct (finishLoading_flag (finishedAt e) (nextTimerId s) true s0)
    as (Hflag & _ & Hdom).
  destruct (finishLoading_success (finishedAt e) (nextTimerId s) s0)
    as (Hlast & Herr & _).
  split; [unfold renderedRows in *; rewrite Hdom; exact Hrows|].
  split; [exact Hlast|]. split; [exact Herr|].
  intros e' Hclose. apply load_too_frequent; [exact Hflag | rewrite Hlast; exact Hclose].
Qed.

Lemma no_records_is_success_witness :
  exists s', loadLastEntries (worldEmpty 10000) threeErrors = (s', Succeeded)
             /\ renderedRows s' = [noEntriesRow]
             /\ consecutiveErrors s' = 0
             /\ loadLastEntries (world 10200) s' = (s', SkippedTooFrequent).
Proof.
  destruct (no_records_is_success (worldEmpty 10000) threeErrors)
    as (s' & Hload & Hrows & _ & Herr & Hdeb).
  - split; vm_compute; [reflexivity | discriminate].
  - reflexivity.
  - exact I.
  - exists s'. split; [exact Hload|]. split; [exact Hrows|]. split; [exact Herr|].
    apply Hdeb. vm_compute. reflexivity.
Defined.

(** ** Failing cycles *)

(** Whatever the [try] block throws, the list element is there. *)
Lemma tryLoad_thrown (e : Env) (h : positive) (s s' : State) :
  tryLoad e h s = Thrown s' -> exists l, entriesList (dom s') = Some l.
Proof.
  unfold tryLoad, _createEntriesList.
  set (s1 := if JS.truthy (entriesList (dom s)) then s
             else if sectionPresent (dom s) then appendEntriesList s else s).
  destruct (entriesList (dom s1)) as [l|] eqn:Hl1; cbn [JS.truthy negb];
    [|discriminate].
  assert (H2 : forall f, exists l', entriesList (dom (onList f s1)) = Some l').
  { intros f. cbn. rewrite Hl1. cbn. eauto. }
  assert (H3 : forall f g, exists l',
               entriesList (dom (onList g (onList f s1))) = Some l').
  { intros f g. cbn. rewrite Hl1. cbn. eauto. }
  destruct (_getPCRecordsFolder e) as [[f|]|].
  - destruct (game_actors e) as [actors|].
    + destruct (negb (_hasActorsInFolder actors f)); [discriminate|].
      destruct (renderThrows e); [|discriminate].
      intros [= <-]. apply H3.
    + intros [= <-]. apply H3.
  - discriminate.
  - intros [= <-]. apply H2.
Qed.

(** A cycle that fails through the [catch] block counts one more error
    and shows the error row; it leaves the recurring timer as it was. *)
Lemma failed_cycle_effect (e : Env) (s s' : State) :
  loadLastEntries e s = (s', Failed) ->
  consecutiveErrors s' = consecutiveErrors s + 1
  /\ renderedRows s' = [errorRow]
  /\ refreshIntervalId s' = refreshIntervalId s
  /\ intervals s' = intervals s.
Proof.
  intros Hload.
  assert (Hst : starts e s).
  { apply load_step in Hload. now inversion Hload. }
  rewrite (load_starts e s Hst) in Hload.
  destruct (tryLoad_cases e (nextTimerId s) (armWatchdog e s))
    as [[d Hd]|[[d Hd]|[d Hd]]]; rewrite Hd in Hload; try discriminate.
  destruct (tryLoad_thrown e _ _ _ Hd) as [l Hl].
  unfold catchLoad in Hload. destruct (placeholderThrows e); [discriminate|].
  injection Hload as <-. cbn in Hl |- *. unfold renderedRows. cbn.
  rewrite Hl. repeat split.
Qed.

(** C1 (where the code departs from it): with three consecutive errors
    counted and the recurring timer running at 500ms, a cycle whose data
    source throws counts the fourth error and shows the error row, but the
    timer stays at 500ms; and a watchdog that fires counts an error
    without showing any row. *)
Theorem failed_cycle_keeps_cadence :
  cadence threeErrors = Some 500
  /\ snd (loadLastEntries (worldDown 10000) threeErrors) = Failed
  /\ consecutiveErrors (fst (loadLastEntries (worldDown 10000) threeErrors)) = 4
  /\ renderedRows (fst (loadLastEntries (worldDown 10000) threeErrors)) = [errorRow]
  /\ cadence (fst (loadLastEntries (worldDown 10000) threeErrors)) = Some 500
  /\ cadence (watchdogCallback threeErrors) = Some 2000
  /\ exists s2, fireTimeout 2 13000 stuckInFlight = Some s2
                /\ consecutiveErrors s2 = 1
                /\ renderedRows s2 = [].
Proof.
  repeat split; try (vm_compute; reflexivity).
  eexists. split; [vm_compute; reflexivity|]. split; vm_compute; reflexivity.
Qed.

(** ** Forced display *)

(** C9: [forceDisplayLastEntries] calls [loadLastEntries] only when the
    list shows no row; when it shows at least one, no load is made, the
    rows stay as they are, and nothing changes but the style of the
    list. *)
Theorem force_display_preserves (e : Env) (s : State) :
  (forall s' o, forceDisplayLastEntries e s = (s', Some o) -> renderedRows s = [])
  /\ (renderedRows s <> [] ->
      exists s', forceDisplayLastEntries e s = (s', None)
                 /\ renderedRows s' = renderedRows s
                 /\ (s' = s \/ s' = onList applyStyle s)).
Proof.
  unfold forceDisplayLastEntries, renderedRows. split.
  - intros s' o.
    destruct (negb (interfaceActive e)); [discriminate|].
    destruct (sectionPresent (dom s)); [|discriminate].
    destruct (entriesList (dom s)) as [l|] eqn:El; [|reflexivity]. cbn.
    rewrite El. cbn.
    destruct (Nat.eqb_spec (length (rows l)) 0) as [H0|]; [|discriminate].
    intros _. now apply length_zero_iff_nil.
  - intros Hrows.
    destruct (negb (interfaceActive e)); [eauto|].
    destruct (sectionPresent (dom s)); [|eauto].
    destruct (entriesList (dom s)) as [l|] eqn:El; [|congruence]. cbn.
    rewrite El. cbn.
    destruct (Nat.eqb_spec (length (rows l)) 0) as [H0|].
    + apply length_zero_iff_nil in H0. congruence.
    + eexists. split; [reflexivity|]. cbn. rewrite El. cbn. split; [reflexivity|].
      right. unfold onList. now rewrite El.
Qed.

Lemma force_display_preserves_witness :
  renderedRows (fst (loadLastEntries (world 10000) running)) <> []
  /\ exists s', forceDisplayLastEntries (worldDown 10600)
                  (fst (loadLastEntries (world 10000) running)) = (s', None)
                /\ renderedRows s'
                   = renderedRows (fst (loadLastEntries (world 10000) running)).
Proof.
  assert (H : renderedRows (fst (loadLastEntries (world 10000) running)) <> [])
    by (vm_compute; discriminate).
  split; [exact H|].
  destruct (force_display_preserves (worldDown 10600)
              (fst (loadLastEntries (world 10000) running))) as [_ Hkeep].
  destruct (Hkeep H) as (s' & Hf & Hr & _).
  exists s'. split; [exact Hf | exact Hr].
Defined.

(** ** Labels *)

Lemma append_empty_r (s : string) : s +:+ "" = s.
Proof.
  induction s as [|c r IH]; [reflexivity|].
  change (String c (r +:+ "") = String c r). now rewrite IH.
Qed.

Lemma append_assoc (s1 s2 s3 : string) : (s1 +:+ s2) +:+ s3 = s1 +:+ (s2 +:+ s3).
Proof.
  induction s1 as [|c r IH]; [reflexivity|].
  change (String c ((r +:+ s2) +:+ s3) = String c (r +:+ (s2 +:+ s3))).
  now rewrite IH.
Qed.

Lemma generateActorsHTML_rows (actors : list Actor) :
  _generateActorsHTML actors
  = fold_right (fun row html => row +:+ html) "" (map actorRow actors).
Proof.
  unfold _generateActorsHTML.
  assert (H : forall acc,
    fold_left (fun htmlContent actor => htmlContent +:+ actorRow actor) actors acc
    = acc +:+ fold_right (fun row html => row +:+ html) "" (map actorRow actors)).
  { induction actors as [|a r IH]; intros acc; cbn.
    - now rewrite append_empty_r.
    - rewrite IH. now rewrite append_assoc. }
  apply H.
Qed.

(** C7 (as amended): the label is REFERENCE - FIRSTNAME MIDDLENAME with
    the surname flag as reference when that flag is set to anything but
    the text UNKNOWN, it is UNKNOWN - FIRSTNAME MIDDLENAME when only the
    firstName flag is set, and it is the actor's name when neither the
    surname nor the firstName flag is set. *)
Theorem entry_label_cases (a : Actor) :
  (flagSet a "surname" = true -> flagText a "surname" <> "UNKNOWN" ->
   entryLabel a = fullLabel (flagText a "surname") a)
  /\ (flagSet a "surname" = false -> flagSet a "firstName" = true ->
      entryLabel a = fullLabel "UNKNOWN" a)
  /\ (flagSet a "surname" = false -> flagSet a "firstName" = false ->
      entryLabel a = actor_name a).
Proof.
  unfold fullLabel, flagSet, flagText, entryLabel, flagOr.
  destruct (actor_flagsThrow a); cbn [negb andb].
  { repeat split; intros; try discriminate; reflexivity. }
  destruct (actor_flags a !! "surname") as [[|c1 r1]|];
    destruct (actor_flags a !! "firstName") as [[|c2 r2]|];
    cbn [JS.orElse isEmpty negb andb];
    repeat split; intros; try discriminate; try reflexivity;
    destruct (String.eqb_spec (String c1 r1) "UNKNOWN"); congruence.
Qed.

Lemma entry_label_cases_witness :
  entryLabel actorDoe = "DOE - JANE Q"
  /\ entryLabel actorJohn = "UNKNOWN - JOHN "
  /\ entryLabel actor9 = "Nine".
Proof.
  destruct (entry_label_cases actorDoe) as (H1 & _ & _).
  destruct (entry_label_cases actorJohn) as (_ & H2 & _).
  destruct (entry_label_cases actor9) as (_ & _ & H3).
  split; [|split].
  - rewrite H1; [vm_compute; reflexivity | vm_compute; reflexivity | vm_compute; discriminate].
  - rewrite H2; vm_compute; reflexivity.
  - rewrite H3; vm_compute; reflexivity.
Defined.

(** A record without surname whose label is not the actor's name. *)
Lemma entry_label_without_surname :
  flagSet actorJohn "surname" = false
  /\ entryLabel actorJohn = "UNKNOWN - JOHN "
  /\ entryLabel actorJohn <> actor_name actorJohn.
Proof. split; [|split]; vm_compute; [reflexivity | reflexivity | discriminate]. Qed.

(* ===================================================================== *)
(** * Further properties of the controller *)
(* ===================================================================== *)

(** ** What a call does to the timer, the count and the last success *)

Lemma load_timer_effect (e : Env) (s s' : State) (o : Outcome) :
  loadLastEntries e s = (s', o) ->
  (o = Succeeded
   /\ match refreshIntervalId s with
      | Some old =>
          refreshIntervalId s' = Some (Pos.succ (nextTimerId s))
          /\ intervals s'
             = <[Pos.succ (nextTimerId s) := (500, RefreshOnly)]>
                 (delete old (intervals s))
      | None => refreshIntervalId s' = None /\ intervals s' = intervals s
      end)
  \/ (o <> Succeeded
      /\ refreshIntervalId s' = refreshIntervalId s
      /\ intervals s' = intervals s).
Proof.
  intros Hload. apply load_step in Hload.
  inversion Hload as [| |d Hst|d Hst|d Hst|d Hst]; subst;
    try (right; split; [discriminate | split; reflexivity]).
  left. split; [reflexivity|].
  pose proof (finishLoading_success (finishedAt e) (nextTimerId s)
                (set_dom d (armWatchdog e s))) as (_ & _ & H).
  exact H.
Qed.

Lemma load_count_effect (e : Env) (s s' : State) (o : Outcome) :
  loadLastEntries e s = (s', o) ->
  match o with
  | Succeeded => lastSuccessfulLoad s' = finishedAt e /\ consecutiveErrors s' = 0
  | Failed =>
      lastSuccessfulLoad s' = lastSuccessfulLoad s
      /\ consecutiveErrors s' = consecutiveErrors s + 1
  | _ =>
      lastSuccessfulLoad s' = lastSuccessfulLoad s
      /\ consecutiveErrors s' = consecutiveErrors s
  end.
Proof.
  intros Hload. apply load_step in Hload.
  inversion Hload as [| |d Hst|d Hst|d Hst|d Hst]; subst; try (split; reflexivity).
  pose proof (finishLoading_success (finishedAt e) (nextTimerId s)
                (set_dom d (armWatchdog e s))) as (H1 & H2 & _).
  split; assumption.
Qed.

(** X5: only a cycle that succeeds moves [lastSuccessfulLoad] (to the
    time read at its end) and resets the count; only a cycle that fails
    in the [catch] block raises the count, by one; a call that is
    skipped, aborted or left by an exception changes neither. *)
Theorem load_moves_count_and_time (e : Env) (s : State) :
  (snd (loadLastEntries e s) <> Succeeded ->
   lastSuccessfulLoad (fst (loadLastEntries e s)) = lastSuccessfulLoad s)
  /\ (snd (loadLastEntries e s) <> Succeeded ->
      snd (loadLastEntries e s) <> Failed ->
      consecutiveErrors (fst (loadLastEntries e s)) = consecutiveErrors s)
  /\ (snd (loadLastEntries e s) = Failed ->
      consecutiveErrors (fst (loadLastEntries e s)) = consecutiveErrors s + 1)
  /\ (snd (loadLastEntries e s) = Succeeded ->
      lastSuccessfulLoad (fst (loadLastEntries e s)) = finishedAt e
      /\ consecutiveErrors (fst (loadLastEntries e s)) = 0).
Proof.
  destruct (loadLastEntries e s) as [s' o] eqn:E. cbn [fst snd].
  pose proof (load_count_effect e s s' o E) as H.
  destruct o; cbn in H; destruct H as [H1 H2];
    repeat split; intros; try congruence.
Qed.

Lemma load_moves_count_and_time_witness :
  snd (loadLastEntries (worldDown 10000) threeErrors) = Failed
  /\ consecutiveErrors (fst (loadLastEntries (worldDown 10000) threeErrors)) = 4
  /\ lastSuccessfulLoad (fst (loadLastEntries (worldDown 10000) threeErrors)) = 0.
Proof.
  assert (Ho : snd (loadLastEntries (worldDown 10000) threeErrors) = Failed)
    by (vm_compute; reflexivity).
  destruct (load_moves_count_and_time (worldDown 10000) threeErrors)
    as (Hlast & _ & Hfail & _).
  split; [exact Ho|]. split.
  - rewrite (Hfail Ho). reflexivity.
  - rewrite Hlast; [reflexivity | rewrite Ho; discriminate].
Defined.

(** ** The recurring timer *)

Lemma TimersTidy_ext (s s' : State) :
  refreshIntervalId s' = refreshIntervalId s -> intervals s' = intervals s ->
  TimersTidy s -> TimersTidy s'.
Proof. unfold TimersTidy. intros -> ->. trivial. Qed.

(** Clearing the one timer and setting a new one leaves the new one only. *)
Lemma TimersTidy_replace (s s' : State) (old h : positive) (p : Z)
    (cb : TickCallback) :
  TimersTidy s -> refreshIntervalId s = Some old ->
  refreshIntervalId s' = Some h ->
  intervals s' = <[h := (p, cb)]> (delete old (intervals s)) ->
  p = 500 \/ p = 2000 ->
  TimersTidy s'.
Proof.
  unfold TimersTidy. intros Hs Hold Hnew Hint Hp. rewrite Hold in Hs.
  destruct Hs as (p0 & cb0 & Hs & _). rewrite Hnew, Hint, Hs.
  exists p, cb. split; [|exact Hp].
  rewrite delete_singleton_eq. apply insert_empty.
Qed.

Lemma load_TimersTidy (e : Env) (s : State) :
  TimersTidy s -> TimersTidy (fst (loadLastEntries e s)).
Proof.
  intros Hs. destruct (loadLastEntries e s) as [s' o] eqn:E. cbn [fst].
  destruct (load_timer_effect e s s' o E) as [[_ H]|(_ & H1 & H2)].
  - destruct (refreshIntervalId s) as [old|] eqn:Hold.
    + destruct H as [H1 H2].
      eapply (TimersTidy_replace s s' old); eauto.
    + destruct H as [H1 H2]. unfold TimersTidy in *.
      rewrite Hold in Hs. now rewrite H1, H2.
  - now apply (TimersTidy_ext s s').
Qed.

Lemma force_TimersTidy (e : Env) (s : State) :
  TimersTidy s -> TimersTidy (fst (forceDisplayLastEntries e s)).
Proof.
  intros Hinv. unfold forceDisplayLastEntries.
  destruct (negb (interfaceActive e)); [exact Hinv|].
  destruct (sectionPresent (dom s)); [|exact Hinv].
  set (s1 := onList applyStyle _).
  assert (H1 : TimersTidy s1).
  { subst s1. destruct (JS.truthy (entriesList (dom s)));
      (eapply TimersTidy_ext; [| |exact Hinv]; reflexivity). }
  destruct (entriesList (dom s1)) as [l|]; [|exact H1].
  destruct (length (rows l) =? 0)%nat; [|exact H1].
  pose proof (load_TimersTidy e s1 H1) as H2.
  destruct (loadLastEntries e s1); exact H2.
Qed.

Lemma watchdogCallback_TimersTidy (s : State) :
  TimersTidy s -> TimersTidy (watchdogCallback s).
Proof.
  intros Hs. pose proof (watchdogCallback_timer s) as H.
  destruct (refreshIntervalId s) as [old|] eqn:Hold.
  - destruct (3 <? consecutiveErrors s + 1); destruct H as [H1 H2].
    + eapply (TimersTidy_replace s _ old); eauto.
    + apply (TimersTidy_ext s); [congruence | exact H2 | exact Hs].
  - destruct H as [H1 H2]. apply (TimersTidy_ext s); [congruence | exact H2 | exact Hs].
Qed.

Lemma stopRefresh_TimersTidy (s : State) : TimersTidy s -> TimersTidy (stopRefresh s).
Proof.
  unfold TimersTidy, stopRefresh.
  destruct (refreshIntervalId s) as [h|] eqn:Hh; cbn; [|now rewrite Hh].
  intros (p & cb & -> & _). apply delete_singleton_eq.
Qed.

Lemma startRefresh_TimersTidy (s : State) : TimersTidy s -> TimersTidy (startRefresh s).
Proof.
  unfold TimersTidy, startRefresh.
  destruct (refreshIntervalId s) as [h|] eqn:Hh; cbn; [now rewrite Hh|].
  intros ->. exists 500, RefreshAndForce. split; [first [apply insert_empty | reflexivity] | now left].
Qed.

Lemma renewRefresh_TimersTidy (s : State) : TimersTidy s -> TimersTidy (renewRefresh s).
Proof.
  unfold TimersTidy, renewRefresh.
  destruct (refreshIntervalId s) as [h|] eqn:Hh; cbn.
  - intros (p & cb & -> & _). exists 500, RefreshAndForce.
    split; [|now left]. rewrite delete_singleton_eq. first [apply insert_empty | reflexivity].
  - intros ->. exists 500, RefreshAndForce. split; [first [apply insert_empty | reflexivity] | now left].
Qed.

Lemma step_TimersTidy (ev : Event) (s : State) :
  TimersTidy s -> TimersTidy (step ev s).
Proof.
  intros Hinv. destruct ev as [e|e|h e e'|h t| | | |d]; cbn [step].
  - now apply load_TimersTidy.
  - now apply force_TimersTidy.
  - unfold fireInterval. destruct (intervals s !! h) as [[p cb]|]; [|exact Hinv].
    unfold tick. destruct (interfaceActive e); [|exact Hinv].
    pose proof (load_TimersTidy e s Hinv) as H1.
    destruct (loadLastEntries e s) as [s1 o]. cbn [fst] in H1.
    destruct cb; [|exact H1].
    destruct o; try exact H1; now apply force_TimersTidy.
  - unfold fireTimeout. destruct (timeouts s !! h) as [due|]; [|exact Hinv].
    destruct (due <=? t); [|exact Hinv]. cbn.
    apply watchdogCallback_TimersTidy.
    now apply (TimersTidy_ext s).
  - now apply stopRefresh_TimersTidy.
  - now apply startRefresh_TimersTidy.
  - now apply renewRefresh_TimersTidy.
  - exact Hinv.
Qed.

Lemma run_TimersTidy (evs : list Event) (s : State) :
  TimersTidy s -> TimersTidy (run evs s).
Proof.
  revert s. induction evs as [|ev evs IH]; intros s Hinv; [exact Hinv|].
  apply IH, step_TimersTidy, Hinv.
Qed.

(** X1: after any sequence of events the recurring refresh timers never
    pile up: when [refreshIntervalId] is null no interval is active, and
    otherwise exactly one is, the one it names, and it runs at 500ms or
    at 2000ms. *)
Theorem refresh_timers_never_pile_up (d : Dom) (evs : list Event) :
  (size (intervals (run evs (initial d))) <= 1)%nat
  /\ (refreshIntervalId (run evs (initial d)) = None <->
      intervals (run evs (initial d)) = ∅)
  /\ (forall h p cb, intervals (run evs (initial d)) !! h = Some (p, cb) ->
      refreshIntervalId (run evs (initial d)) = Some h /\ (p = 500 \/ p = 2000))
  /\ (cadence (run evs (initial d)) = None
      \/ cadence (run evs (initial d)) = Some 500
      \/ cadence (run evs (initial d)) = Some 2000).
Proof.
  pose proof (run_TimersTidy evs (initial d) eq_refl) as Hinv.
  set (s := run evs (initial d)) in *.
  unfold TimersTidy, cadence in *.
  destruct (refreshIntervalId s) as [h0|].
  - destruct Hinv as (p0 & cb0 & -> & Hp). rewrite map_size_singleton.
    split; [lia|]. split.
    { split; [discriminate|]. intros H.
      apply (f_equal (fun m => m !! h0)) in H.
      rewrite lookup_singleton_eq, lookup_empty in H. discriminate. }
    split.
    { intros h p cb H. apply lookup_singleton_Some in H as [<- [= <- <-]].
      now split. }
    cbn. rewrite lookup_singleton_eq. cbn. destruct Hp as [->| ->]; auto.
  - rewrite Hinv, map_size_empty. split; [lia|]. split; [tauto|].
    split; [|now left]. intros h p cb H. now rewrite lookup_empty in H.
Qed.

Lemma load_cadence (e : Env) (s : State) :
  cadence (fst (loadLastEntries e s)) = cadence s
  \/ cadence (fst (loadLastEntries e s)) = Some 500
  \/ cadence (fst (loadLastEntries e s)) = None.
Proof.
  destruct (loadLastEntries e s) as [s' o] eqn:E. cbn [fst].
  destruct (load_timer_effect e s s' o E) as [[_ H]|(_ & H1 & H2)].
  - right. destruct (refreshIntervalId s) as [old|]; destruct H as [H1 H2];
      unfold cadence; rewrite H1, H2; cbn.
    + left. now rewrite lookup_insert_eq.
    + now right.
  - left. unfold cadence. now rewrite H1, H2.
Qed.

Lemma force_cadence (e : Env) (s : State) :
  cadence (fst (forceDisplayLastEntries e s)) = cadence s
  \/ cadence (fst (forceDisplayLastEntries e s)) = Some 500
  \/ cadence (fst (forceDisplayLastEntries e s)) = None.
Proof.
  unfold forceDisplayLastEntries.
  destruct (negb (interfaceActive e)); [now left|].
  destruct (sectionPresent (dom s)); [|now left].
  set (s1 := onList applyStyle _).
  assert (H1 : cadence s1 = cadence s).
  { subst s1. destruct (JS.truthy (entriesList (dom s))); reflexivity. }
  destruct (entriesList (dom s1)) as [l|]; [|now left].
  destruct (length (rows l) =? 0)%nat; [|now left].
  pose proof (load_cadence e s1) as H2. rewrite H1 in H2.
  destruct (loadLastEntries e s1); exact H2.
Qed.

(** X2: no event other than a firing watchdog slows the recurring timer:
    after a call, a forced display, a tick, a stop, a start, a renewal or
    a change of the page, the period is what it was, or 500ms, or there
    is no timer. *)
Theorem only_watchdog_slows_timer (ev : Event) (s : State) :
  isTimeoutEvent ev = false ->
  cadence (step ev s) = cadence s
  \/ cadence (step ev s) = Some 500
  \/ cadence (step ev s) = None.
Proof.
  intros Hev. destruct ev as [e|e|h e e'|h t| | | |d]; cbn [step];
    try discriminate.
  - apply load_cadence.
  - apply force_cadence.
  - unfold fireInterval. destruct (intervals s !! h) as [[p cb]|]; [|now left].
    unfold tick. destruct (interfaceActive e); [|now left].
    pose proof (load_cadence e s) as H1.
    destruct (loadLastEntries e s) as [s1 o]. cbn [fst] in H1.
    destruct cb; [|exact H1].
    pose proof (force_cadence e' s1) as H2.
    destruct o; try exact H1;
      (destruct H2 as [H2|H2]; [rewrite H2; exact H1 | right; exact H2]).
  - unfold stopRefresh.
    destruct (refreshIntervalId s); [right; right; reflexivity | now left].
  - unfold startRefresh.
    destruct (refreshIntervalId s) eqn:Hr; [now left|].
    right; left. unfold cadence. cbn. now rewrite lookup_insert_eq.
  - right; left. unfold renewRefresh, cadence.
    destruct (refreshIntervalId s); cbn; now rewrite lookup_insert_eq.
  - now left.
Qed.

Lemma only_watchdog_slows_timer_witness :
  cadence degraded = Some 2000
  /\ (cadence (step (CallLoad (world 10000)) degraded) = cadence degraded
      \/ cadence (step (CallLoad (world 10000)) degraded) = Some 500
      \/ cadence (step (CallLoad (world 10000)) degraded) = None).
Proof.
  split; [vm_compute; reflexivity|].
  apply (only_watchdog_slows_timer (CallLoad (world 10000)) degraded).
  reflexivity.
Defined.

(** X3: a watchdog that fires adds one to the error count and changes no
    markup of the list; when a recurring timer runs and the count has
    passed 3 it clears that timer and sets one at 2000ms in its place,
    the only one left when the old one was the only one; when the count
    is still at most 3 it leaves the timer as it is, and without a
    running timer it creates none. *)
Theorem watchdog_slows_after_three (h : positive) (t : Z) (s s' : State) :
  fireTimeout h t s = Some s' ->
  consecutiveErrors s' = consecutiveErrors s + 1
  /\ renderedRows s' = renderedRows s
  /\ (forall old, refreshIntervalId s = Some old -> 3 < consecutiveErrors s' ->
      cadence s' = Some 2000
      /\ exists h',
          refreshIntervalId s' = Some h'
          /\ intervals s' = <[h' := (2000, RefreshOnly)]> (delete old (intervals s))
          /\ (TimersTidy s -> intervals s' = {[h' := (2000, RefreshOnly)]}))
  /\ (consecutiveErrors s' <= 3 ->
      refreshIntervalId s' = refreshIntervalId s /\ intervals s' = intervals s)
  /\ (refreshIntervalId s = None ->
      refreshIntervalId s' = None /\ intervals s' = intervals s).
Proof.
  unfold fireTimeout. destruct (timeouts s !! h) as [due|]; [|discriminate].
  destruct (due <=? t); [|discriminate]. intros [= <-].
  destruct (watchdogCallback_flag (clearTimeout h s)) as (_ & _ & Hc & Hd).
  pose proof (watchdogCallback_timer (clearTimeout h s)) as Ht.
  change (refreshIntervalId (clearTimeout h s)) with (refreshIntervalId s) in Ht.
  change (consecutiveErrors (clearTimeout h s)) with (consecutiveErrors s) in *.
  change (intervals (clearTimeout h s)) with (intervals s) in Ht.
  change (nextTimerId (clearTimeout h s)) with (nextTimerId s) in Ht.
  split; [exact Hc|]. split; [unfold renderedRows; now rewrite Hd|].
  rewrite Hc. destruct (refreshIntervalId s) as [old|] eqn:Hold.
  - destruct (Z.ltb_spec 3 (consecutiveErrors s + 1)) as [Hgt|Hle];
      destruct Ht as [H1 H2].
    + split; [|split; [lia | discriminate]].
      intros old' [= <-] _. split.
      { unfold cadence. rewrite H1, H2. cbn. now rewrite lookup_insert_eq. }
      exists (nextTimerId s). split; [exact H1|]. split; [exact H2|].
      intros Htidy. unfold TimersTidy in Htidy. rewrite Hold in Htidy.
      destruct Htidy as (p0 & cb0 & Hone & _).
      rewrite H2, Hone, delete_singleton_eq. apply insert_empty.
    + split; [intros; lia|]. split; [now split | discriminate].
  - split; [discriminate|]. split; intros; exact Ht.
Qed.

Lemma stuckAfterThree_tidy : TimersTidy stuckAfterThree.
Proof.
  apply load_TimersTidy.
  apply (TimersTidy_ext running); [reflexivity | reflexivity |].
  apply startRefresh_TimersTidy. reflexivity.
Qed.

Lemma watchdog_slows_after_three_witness :
  exists s', fireTimeout 2 13000 stuckAfterThree = Some s'
             /\ consecutiveErrors s' = 4
             /\ cadence s' = Some 2000
             /\ intervals s' !! 1%positive = None
             /\ size (intervals s') = 1%nat.
Proof.
  destruct (fireTimeout 2 13000 stuckAfterThree) as [s'|] eqn:E;
    [|vm_compute in E; discriminate].
  destruct (watchdog_slows_after_three 2 13000 stuckAfterThree s' E)
    as (Hc & _ & Hslow & _).
  assert (Hcount : consecutiveErrors s' = 4) by (rewrite Hc; vm_compute; reflexivity).
  destruct (Hslow 1%positive eq_refl) as (Hcad & h' & Hid & Hrepl & Hone);
    [rewrite Hcount; reflexivity|].
  exists s'. split; [reflexivity|]. split; [exact Hcount|]. split; [exact Hcad|].
  split.
  - rewrite Hrepl.
    assert (Hnew : refreshIntervalId s' = Some 3%positive)
      by (vm_compute in E; injection E as <-; reflexivity).
    assert (Hh' : h' = 3%positive) by congruence.
    subst h'. rewrite lookup_insert_ne by discriminate. apply lookup_delete_eq.
  - rewrite (Hone stuckAfterThree_tidy). apply map_size_singleton.
Defined.

(** X4: on every state the controller can reach, stopping the timer leaves
    no interval active, starting it after a stop gives one at 500ms,
    starting it while one runs changes nothing (a slowed timer stays
    slowed), stopping and starting are idempotent, and the renewal made
    by [renderInterface] always ends with exactly one timer, at 500ms. *)
Theorem stop_start_renew (d : Dom) (evs : list Event) :
  (refreshIntervalId (stopRefresh (run evs (initial d))) = None
   /\ intervals (stopRefresh (run evs (initial d))) = ∅)
  /\ cadence (startRefresh (stopRefresh (run evs (initial d)))) = Some 500
  /\ (refreshIntervalId (run evs (initial d)) <> None ->
      startRefresh (run evs (initial d)) = run evs (initial d))
  /\ stopRefresh (stopRefresh (run evs (initial d)))
     = stopRefresh (run evs (initial d))
  /\ startRefresh (startRefresh (run evs (initial d)))
     = startRefresh (run evs (initial d))
  /\ (cadence (renewRefresh (run evs (initial d))) = Some 500
      /\ size (intervals (renewRefresh (run evs (initial d)))) = 1%nat).
Proof.
  pose proof (run_TimersTidy evs (initial d) eq_refl) as Hinv.
  set (s := run evs (initial d)) in *.
  split; [|split; [|split; [|split; [|split]]]].
  - pose proof (stopRefresh_TimersTidy s Hinv) as Hstop.
    assert (Hnull : refreshIntervalId (stopRefresh s) = None).
    { unfold stopRefresh. destruct (refreshIntervalId s) eqn:Hr; [reflexivity | exact Hr]. }
    unfold TimersTidy in Hstop. rewrite Hnull in Hstop. now split.
  - unfold stopRefresh, startRefresh, cadence.
    destruct (refreshIntervalId s) eqn:Hr; cbn; rewrite ?Hr; cbn;
      now rewrite lookup_insert_eq.
  - unfold startRefresh. destruct (refreshIntervalId s); [reflexivity | congruence].
  - unfold stopRefresh at 1.
    assert (Hnull : refreshIntervalId (stopRefresh s) = None).
    { unfold stopRefresh. destruct (refreshIntervalId s) eqn:Hr; [reflexivity | exact Hr]. }
    now rewrite Hnull.
  - unfold startRefresh at 1.
    assert (Hrun : exists h, refreshIntervalId (startRefresh s) = Some h).
    { unfold startRefresh. destruct (refreshIntervalId s) eqn:Hr; cbn; eauto. }
    destruct Hrun as [h ->]. reflexivity.
  - pose proof (renewRefresh_TimersTidy s Hinv) as Hre.
    unfold TimersTidy in Hre.
    assert (Hc : cadence (renewRefresh s) = Some 500).
    { unfold renewRefresh, cadence.
      destruct (refreshIntervalId s); cbn; now rewrite lookup_insert_eq. }
    split; [exact Hc|].
    destruct (refreshIntervalId (renewRefresh s)) as [h|] eqn:Hr.
    + destruct Hre as (p & cb & -> & _). apply map_size_singleton.
    + unfold cadence in Hc. rewrite Hr in Hc. discriminate.
Qed.

Lemma stop_start_renew_witness :
  refreshIntervalId (run [StartRefresh; CallLoad (world 10000)] (initial domWithList))
  <> None
  /\ startRefresh (run [StartRefresh; CallLoad (world 10000)] (initial domWithList))
     = run [StartRefresh; CallLoad (world 10000)] (initial domWithList).
Proof.
  assert (H : refreshIntervalId
                (run [StartRefresh; CallLoad (world 10000)] (initial domWithList))
              <> None) by (vm_compute; discriminate).
  split; [exact H|].
  destruct (stop_start_renew domWithList [StartRefresh; CallLoad (world 10000)])
    as (_ & _ & Hkeep & _).
  exact (Hkeep H).
Defined.

(** ** Outcomes of the load cycle *)

Lemma tryLoad_unavailable (e : Env) (h : positive) (s : State) :
  listAvailable s = false ->
  tryLoad e h s = Returned (set_isLoadingEntries false (clearTimeout h s)) Aborted.
Proof.
  unfold listAvailable, tryLoad, _createEntriesList. intros H.
  apply orb_false_elim in H as [H1 H2]. now rewrite H1, H2, H1.
Qed.

Lemma tryLoad_outcome (e : Env) (h : positive) (s : State) :
  listAvailable s = true ->
  match tryLoad e h s with
  | Returned _ o => o = Succeeded /\ tryThrows e = false
  | Thrown _ => tryThrows e = true
  end.
Proof.
  unfold listAvailable, tryLoad, tryThrows, _createEntriesList. intros Hav.
  set (s1 := if JS.truthy (entriesList (dom s)) then s
             else if sectionPresent (dom s) then appendEntriesList s else s).
  assert (H1 : JS.truthy (entriesList (dom s1)) = true).
  { subst s1. destruct (JS.truthy (entriesList (dom s))) eqn:El; [exact El|].
    cbn in Hav. now rewrite Hav. }
  rewrite H1. cbn [negb].
  destruct (_getPCRecordsFolder e) as [[f|]|]; [|now split|reflexivity].
  destruct (game_actors e) as [actors|]; [|reflexivity].
  destruct (_hasActorsInFolder actors f); cbn [negb andb]; [|now split].
  destruct (renderThrows e); [reflexivity | now split].
Qed.

Lemma load_outcome (e : Env) (s : State) :
  starts e s -> listAvailable s = true ->
  snd (loadLastEntries e s)
  = if tryThrows e then (if placeholderThrows e then Escaped else Failed)
    else Succeeded.
Proof.
  intros Hst Hav. rewrite (load_starts e s Hst).
  pose proof (tryLoad_outcome e (nextTimerId s) (armWatchdog e s) Hav) as H.
  destruct (tryLoad e (nextTimerId s) (armWatchdog e s)) as [s' o|s'].
  - destruct H as [-> ->]. reflexivity.
  - rewrite H. unfold catchLoad. now destruct (placeholderThrows e).
Qed.

(** X6: a call that passes both guards is aborted exactly when there is
    no list element and no LAST ENTRIES section to create one in; an
    aborted call cancels its watchdog and clears the flag, and leaves the
    page, the count, the last success and the timer as they were. *)
Theorem load_aborts_without_list (e : Env) (s : State) :
  (snd (loadLastEntries e s) = Aborted <-> starts e s /\ listAvailable s = false)
  /\ (snd (loadLastEntries e s) = Aborted ->
      isLoadingEntries (fst (loadLastEntries e s)) = false
      /\ timeouts (fst (loadLastEntries e s)) !! nextTimerId s = None
      /\ dom (fst (loadLastEntries e s)) = dom s
      /\ consecutiveErrors (fst (loadLastEntries e s)) = consecutiveErrors s
      /\ lastSuccessfulLoad (fst (loadLastEntries e s)) = lastSuccessfulLoad s
      /\ refreshIntervalId (fst (loadLastEntries e s)) = refreshIntervalId s
      /\ intervals (fst (loadLastEntries e s)) = intervals s).
Proof.
  assert (Hiff : snd (loadLastEntries e s) = Aborted ->
                 starts e s /\ listAvailable s = false).
  { intros Ho.
    assert (Hst : starts e s).
    { destruct (loadLastEntries e s) as [s' o] eqn:E. cbn in Ho. subst o.
      apply load_step in E. now inversion E. }
    split; [exact Hst|].
    destruct (listAvailable s) eqn:Hav; [|reflexivity].
    rewrite (load_outcome e s Hst Hav) in Ho.
    destruct (tryThrows e), (placeholderThrows e); discriminate. }
  split.
  - split; [exact Hiff|]. intros [Hst Hav]. rewrite (load_starts e s Hst).
    now rewrite (tryLoad_unavailable e (nextTimerId s) (armWatchdog e s) Hav).
  - intros Ho. destruct (Hiff Ho) as [Hst Hav].
    rewrite (load_starts e s Hst),
      (tryLoad_unavailable e (nextTimerId s) (armWatchdog e s) Hav). cbn.
    repeat split. apply lookup_delete_eq.
Qed.

Lemma load_aborts_without_list_witness :
  snd (loadLastEntries (world 10000) (initial {| sectionPresent := false;
                                                  entriesList := None |}))
  = Aborted
  /\ consecutiveErrors
       (fst (loadLastEntries (world 10000)
               (initial {| sectionPresent := false; entriesList := None |}))) = 0.
Proof.
  destruct (load_aborts_without_list (world 10000)
              (initial {| sectionPresent := false; entriesList := None |}))
    as [[_ Hab] Hkeep].
  assert (Ho : snd (loadLastEntries (world 10000)
                 (initial {| sectionPresent := false; entriesList := None |}))
               = Aborted).
  { apply Hab. split; [split; vm_compute; [reflexivity | discriminate] | reflexivity]. }
  split; [exact Ho|]. destruct (Hkeep Ho) as (_ & _ & _ & Hc & _). exact Hc.
Defined.

Lemma tryLoad_keeps_list (e : Env) (h : positive) (s : State) :
  JS.truthy (entriesList (dom s)) = true ->
  match tryLoad e h s with
  | Returned s' _ | Thrown s' => JS.truthy (entriesList (dom s')) = true
  end.
Proof.
  intros Hl. unfold tryLoad. rewrite Hl. cbn [negb].
  destruct (entriesList (dom s)) as [l|] eqn:El; [|discriminate].
  assert (Hfin : forall f g, JS.truthy (entriesList (dom
            (_finishLoading (finishedAt e) h true
               (onList g (onList (withRows []) (onList f s))))))
            = true).
  { intros f g.
    destruct (finishLoading_flag (finishedAt e) h true
                (onList g (onList (withRows []) (onList f s)))) as (_ & _ & ->).
    cbn. now rewrite El. }
  destruct (_getPCRecordsFolder e) as [[f|]|].
  - destruct (game_actors e) as [actors|]; [|cbn; now rewrite El].
    destruct (negb (_hasActorsInFolder actors f)); [apply Hfin|].
    destruct (renderThrows e); [cbn; now rewrite El | apply Hfin].
  - apply Hfin.
  - cbn. now rewrite El.
Qed.

Lemma load_keeps_list (e : Env) (s : State) :
  JS.truthy (entriesList (dom s)) = true ->
  JS.truthy (entriesList (dom (fst (loadLastEntries e s)))) = true.
Proof.
  intros Hl. unfold loadLastEntries.
  destruct (isLoadingEntries s); [exact Hl|].
  destruct (now e - lastSuccessfulLoad s <? 300); [exact Hl|].
  change (setTimeout (now e) 3000 (set_isLoadingEntries true s))
    with (nextTimerId s, armWatchdog e s). cbv iota beta.
  pose proof (tryLoad_keeps_list e (nextTimerId s) (armWatchdog e s) Hl) as H.
  destruct (tryLoad e (nextTimerId s) (armWatchdog e s)) as [s' o|s']; [exact H|].
  unfold catchLoad. destruct (placeholderThrows e); [exact H|]. cbn.
  destruct (entriesList (dom s')); [reflexivity | discriminate].
Qed.

(** X7: a load that [forceDisplayLastEntries] triggers never aborts for
    want of a list, and the list is there afterwards: the function has
    found or made it before it calls [loadLastEntries], which never
    removes it. *)
Theorem forced_load_never_aborts (e : Env) (s s' : State) (o : Outcome) :
  forceDisplayLastEntries e s = (s', Some o) ->
  o <> Aborted /\ entriesList (dom s') <> None.
Proof.
  unfold forceDisplayLastEntries.
  destruct (negb (interfaceActive e)); [discriminate|].
  destruct (sectionPresent (dom s)); [|discriminate].
  set (s1 := onList applyStyle _).
  destruct (entriesList (dom s1)) as [l|] eqn:El; [|discriminate].
  destruct (length (rows l) =? 0)%nat; [|discriminate].
  destruct (loadLastEntries e s1) as [s2 o2] eqn:E. intros [= <- <-].
  assert (Hl : JS.truthy (entriesList (dom s1)) = true) by now rewrite El.
  assert (Hav : listAvailable s1 = true) by (unfold listAvailable; now rewrite Hl).
  split.
  - intros ->. pose proof (load_step e s1 s2 Aborted E) as Hstep.
    assert (Hst : starts e s1) by now inversion Hstep.
    pose proof (load_outcome e s1 Hst Hav) as Ho. rewrite E in Ho. cbn in Ho.
    destruct (tryThrows e), (placeholderThrows e); discriminate.
  - pose proof (load_keeps_list e s1 Hl) as H. rewrite E in H. cbn in H.
    destruct (entriesList (dom s2)); [discriminate | discriminate].
Qed.

Lemma forced_load_never_aborts_witness :
  exists s' o,
    forceDisplayLastEntries (world 10000)
      (initial {| sectionPresent := true; entriesList := None |}) = (s', Some o)
    /\ o <> Aborted /\ entriesList (dom s') <> None.
Proof.
  destruct (forceDisplayLastEntries (world 10000)
              (initial {| sectionPresent := true; entriesList := None |}))
    as [s' [o|]] eqn:E; [|vm_compute in E; discriminate].
  exists s', o. split; [reflexivity|].
  exact (forced_load_never_aborts _ _ s' o E).
Defined.

(** ** More on the recent records *)

Lemma sort_length {A : Type} (cmp : A -> A -> JS.Number) (l : list A) :
  length (JS.sort cmp l) = length l.
Proof. apply Permutation_length, sort_perm. Qed.

Lemma recent_length (actors : list Actor) (folder : Folder) :
  length (_getRecentActors actors folder)
  = Nat.min 3 (length (List.filter (inFolder folder) actors)).
Proof.
  rewrite recent_is_prefix, length_firstn, sort_length. reflexivity.
Qed.

(** X10: [_getRecentActors] returns as many records as the folder holds,
    up to three, so it returns none exactly when [_hasActorsInFolder] is
    false, the case in which the placeholder row is shown instead. *)
Theorem recent_count (actors : list Actor) (folder : Folder) :
  length (_getRecentActors actors folder)
  = Nat.min 3 (length (List.filter (inFolder folder) actors))
  /\ (_getRecentActors actors folder = [] <->
      _hasActorsInFolder actors folder = false).
Proof.
  split; [apply recent_length|].
  rewrite <- length_zero_iff_nil, recent_length. unfold _hasActorsInFolder.
  destruct (length (List.filter (inFolder folder) actors)) as [|n].
  - split; reflexivity.
  - split; [destruct n as [|[|n]]; discriminate | discriminate].
Qed.

(** X11: every record [_getRecentActors] returns lies in the folder, and
    the result holds no record more often than the collection does. *)
Theorem recent_from_folder (actors : list Actor) (folder : Folder) :
  Forall (fun a => inFolder folder a = true) (_getRecentActors actors folder)
  /\ _getRecentActors actors folder ⊆+ actors.
Proof.
  rewrite recent_is_prefix.
  set (members := List.filter (inFolder folder) actors).
  assert (Hsub : firstn 3 (JS.sort recentCompare members) ⊆+ members).
  { transitivity (JS.sort recentCompare members).
    - apply sublist_submseteq, sublist_take.
    - apply Permutation_submseteq, sort_perm. }
  split.
  - apply Forall_forall. intros a Ha.
    assert (Hin : a ∈ members).
    { eapply elem_of_submseteq; [|exact Hsub]. exact Ha. }
    subst members. apply list_elem_of_In, filter_In in Hin. apply Hin.
  - transitivity members; [exact Hsub|].
    subst members. clear Hsub. induction actors as [|a r IH]; cbn; [reflexivity|].
    destruct (inFolder folder a); [now apply submseteq_skip | now apply submseteq_cons].
Qed.

(** ** What a cycle shows *)

Lemma finishLoading_rows (t : Z) (h : positive) (ok : bool) (s : State) :
  renderedRows (_finishLoading t h ok s) = renderedRows s.
Proof.
  unfold renderedRows.
  destruct (finishLoading_flag t h ok s) as (_ & _ & ->). reflexivity.
Qed.

Lemma tryLoad_records (e : Env) (h : positive) (s : State) (f : Folder)
    (actors : list Actor) :
  listAvailable s = true ->
  _getPCRecordsFolder e = Value (Some f) -> game_actors e = Some actors ->
  _hasActorsInFolder actors f = true -> renderThrows e = false ->
  exists s0, tryLoad e h s
             = Returned (_finishLoading (finishedAt e) h true s0) Succeeded
             /\ renderedRows s0 = [_generateActorsHTML (_getRecentActors actors f)].
Proof.
  unfold listAvailable, tryLoad, _createEntriesList.
  intros Hav Hf Ha Hhas Hr.
  set (s1 := if JS.truthy (entriesList (dom s)) then s
             else if sectionPresent (dom s) then appendEntriesList s else s).
  assert (H1 : exists l, entriesList (dom s1) = Some l).
  { subst s1. destruct (entriesList (dom s)) as [l|] eqn:El; cbn.
    - rewrite El. eauto.
    - cbn in Hav. rewrite Hav. cbn. eauto. }
  destruct H1 as [l Hl1]. rewrite Hl1. cbn [JS.truthy negb].
  rewrite Hf, Ha, Hhas, Hr. cbn [negb].
  eexists. split; [reflexivity|].
  unfold renderedRows. cbn. rewrite Hl1. reflexivity.
Qed.

(** The markup of records never reads as the placeholder row: after
    [dg-result-item] the one closes the attribute, the other goes on. *)
Lemma records_markup_not_placeholder (recent : list Actor) :
  recent <> [] -> _generateActorsHTML recent <> noEntriesRow.
Proof.
  destruct recent as [|a r]; [congruence|]. intros _ Heq.
  rewrite generateActorsHTML_rows in Heq. cbn [map fold_right] in Heq.
  apply (f_equal (JS.substring0 26)) in Heq. vm_compute in Heq. discriminate.
Qed.

(** X8: a cycle that passes both guards, has a list and finds records in
    the PC Records folder, the page update not throwing, succeeds and
    sets the content of the list to the markup [_generateActorsHTML]
    builds for the records [_getRecentActors] returns: the [li]
    fragments of at least one and at most three records, one after the
    other in that order, and not the placeholder row. *)
Theorem records_are_shown (e : Env) (s : State) (f : Folder)
    (actors : list Actor) :
  starts e s -> listAvailable s = true ->
  _getPCRecordsFolder e = Value (Some f) -> game_actors e = Some actors ->
  _hasActorsInFolder actors f = true -> renderThrows e = false ->
  snd (loadLastEntries e s) = Succeeded
  /\ renderedRows (fst (loadLastEntries e s))
     = [_generateActorsHTML (_getRecentActors actors f)]
  /\ _generateActorsHTML (_getRecentActors actors f)
     = fold_right (fun row html => row +:+ html) ""
         (map actorRow (_getRecentActors actors f))
  /\ (1 <= length (_getRecentActors actors f) <= 3)%nat
  /\ renderedRows (fst (loadLastEntries e s)) <> [noEntriesRow].
Proof.
  intros Hst Hav Hf Ha Hhas Hr. rewrite (load_starts e s Hst).
  destruct (tryLoad_records e (nextTimerId s) (armWatchdog e s) f actors)
    as (s0 & -> & Hrows); try assumption.
  cbn [fst snd]. split; [reflexivity|].
  rewrite finishLoading_rows, Hrows.
  assert (Hlen : (1 <= length (_getRecentActors actors f) <= 3)%nat).
  { rewrite recent_length.
    unfold _hasActorsInFolder in Hhas. apply Nat.ltb_lt in Hhas. lia. }
  split; [reflexivity|]. split; [apply generateActorsHTML_rows|].
  split; [exact Hlen|]. intros [= Heq].
  apply (records_markup_not_placeholder (_getRecentActors actors f)); [|exact Heq].
  intros Hnil. rewrite Hnil in Hlen. cbn in Hlen. lia.
Qed.

Lemma records_are_shown_witness :
  renderedRows (fst (loadLastEntries (world 10000) running))
  = [actorRow actor123 +:+ actorRow actor45 +:+ actorRow actor9].
Proof.
  assert (Hst : starts (world 10000) running)
    by (split; vm_compute; [reflexivity | discriminate]).
  destruct (records_are_shown (world 10000) running pcRecords
              [actor9; actor123; actor45] Hst eq_refl eq_refl eq_refl
              eq_refl eq_refl) as (_ & Hrows & _).
  rewrite Hrows. vm_compute. reflexivity.
Defined.

Lemma tryThrows_false (e : Env) :
  tryThrows e = false ->
  findsNoRecords e
  \/ exists f actors,
       _getPCRecordsFolder e = Value (Some f) /\ game_actors e = Some actors
       /\ _hasActorsInFolder actors f = true /\ renderThrows e = false.
Proof.
  unfold tryThrows, findsNoRecords.
  destruct (_getPCRecordsFolder e) as [[f|]|]; [| now left | discriminate].
  destruct (game_actors e) as [actors|]; [|discriminate].
  destruct (_hasActorsInFolder actors f) eqn:Hhas; cbn [andb]; [|now left].
  intros Hr. right. exists f, actors. repeat split; assumption.
Qed.

Lemma sameWorld_tryThrows (e1 e2 : Env) :
  sameWorld e1 e2 -> tryThrows e1 = tryThrows e2.
Proof.
  intros (Hf & Ha & Hr & _). unfold tryThrows, _getPCRecordsFolder.
  now rewrite Hf, Ha, Hr.
Qed.

(** What a cycle that passes the guards shows when it succeeds or fails,
    read off the world alone. *)
Lemma load_rows_by_world (e : Env) (s : State) :
  starts e s -> listAvailable s = true ->
  snd (loadLastEntries e s) = Succeeded \/ snd (loadLastEntries e s) = Failed ->
  renderedRows (fst (loadLastEntries e s))
  = if tryThrows e then [errorRow]
    else match _getPCRecordsFolder e, game_actors e with
         | Value (Some f), Some actors =>
             if _hasActorsInFolder actors f
             then [_generateActorsHTML (_getRecentActors actors f)]
             else [noEntriesRow]
         | _, _ => [noEntriesRow]
         end.
Proof.
  intros Hst Hav Ho.
  pose proof (load_outcome e s Hst Hav) as Hout.
  destruct (loadLastEntries e s) as [s' o] eqn:E. cbn [fst snd] in *.
  destruct (tryThrows e) eqn:Hth.
  - destruct (placeholderThrows e); subst o; [destruct Ho; discriminate|].
    now destruct (failed_cycle_effect e s s' E) as (_ & -> & _).
  - rewrite (load_starts e s Hst) in E.
    destruct (tryThrows_false e Hth) as [Hnone|(f & actors & Hf & Ha & Hhas & Hr)].
    + destruct (tryLoad_noEntries e (nextTimerId s) (armWatchdog e s) Hav Hnone)
        as (t & Ht & Hrows).
      rewrite Ht in E.
      assert (E' : s' = _finishLoading (finishedAt e) (nextTimerId s) true t)
        by congruence.
      rewrite E', finishLoading_rows, Hrows. unfold findsNoRecords in Hnone.
      destruct (_getPCRecordsFolder e) as [[f|]|]; [|reflexivity|contradiction].
      destruct (game_actors e) as [actors|]; [|contradiction]. now rewrite Hnone.
    + destruct (tryLoad_records e (nextTimerId s) (armWatchdog e s) f actors
                  Hav Hf Ha Hhas Hr) as (t & Ht & Hrows).
      rewrite Ht in E.
      assert (E' : s' = _finishLoading (finishedAt e) (nextTimerId s) true t)
        by congruence.
      rewrite E', finishLoading_rows, Hrows, Hf, Ha, Hhas. reflexivity.
Qed.

Lemma tryLoad_makes_list (e : Env) (h : positive) (s : State) :
  listAvailable s = true ->
  match tryLoad e h s with
  | Returned s' _ | Thrown s' => JS.truthy (entriesList (dom s')) = true
  end.
Proof.
  intros Hav. unfold listAvailable in Hav.
  destruct (JS.truthy (entriesList (dom s))) eqn:Hl;
    [now apply tryLoad_keeps_list|].
  cbn in Hav.
  assert (Hsame : tryLoad e h s = tryLoad e h (appendEntriesList s)).
  { unfold tryLoad, _createEntriesList. rewrite Hl, Hav. reflexivity. }
  rewrite Hsame. now apply tryLoad_keeps_list.
Qed.

Lemma load_makes_list (e : Env) (s : State) :
  starts e s -> listAvailable s = true ->
  listAvailable (fst (loadLastEntries e s)) = true.
Proof.
  intros Hst Hav. rewrite (load_starts e s Hst).
  pose proof (tryLoad_makes_list e (nextTimerId s) (armWatchdog e s) Hav) as H.
  unfold listAvailable.
  destruct (tryLoad e (nextTimerId s) (armWatchdog e s)) as [s' o|s'];
    [cbn [fst]; now rewrite H|].
  unfold catchLoad. destruct (placeholderThrows e); cbn [fst]; [now rewrite H|].
  cbn. destruct (entriesList (dom s')); [reflexivity | discriminate].
Qed.

(** X9: what a completed cycle shows depends on the world only, not on
    the clock nor on what the list showed before: two calls that see the
    same collections and page behaviour, pass the guards and have a list
    end alike, and when they succeed or fail they leave the same markup;
    and a call made at least 300ms after a successful one, the world
    unchanged, succeeds again and leaves the list as the first did. *)
Theorem render_depends_on_world_only (e1 e2 : Env) (s1 s2 : State) :
  sameWorld e1 e2 -> starts e1 s1 -> listAvailable s1 = true ->
  (starts e2 s2 -> listAvailable s2 = true ->
   snd (loadLastEntries e1 s1) = snd (loadLastEntries e2 s2)
   /\ (snd (loadLastEntries e1 s1) = Succeeded
       \/ snd (loadLastEntries e1 s1) = Failed ->
       renderedRows (fst (loadLastEntries e1 s1))
       = renderedRows (fst (loadLastEntries e2 s2))))
  /\ (snd (loadLastEntries e1 s1) = Succeeded ->
      300 <= now e2 - finishedAt e1 ->
      snd (loadLastEntries e2 (fst (loadLastEntries e1 s1))) = Succeeded
      /\ renderedRows (fst (loadLastEntries e2 (fst (loadLastEntries e1 s1))))
         = renderedRows (fst (loadLastEntries e1 s1))).
Proof.
  intros Hw Hst1 Hav1.
  assert (Hpair : forall s, starts e2 s -> listAvailable s = true ->
            snd (loadLastEntries e1 s1) = snd (loadLastEntries e2 s)
            /\ (snd (loadLastEntries e1 s1) = Succeeded
                \/ snd (loadLastEntries e1 s1) = Failed ->
                renderedRows (fst (loadLastEntries e1 s1))
                = renderedRows (fst (loadLastEntries e2 s)))).
  { intros s Hst Hav.
    assert (Ho : snd (loadLastEntries e1 s1) = snd (loadLastEntries e2 s)).
    { rewrite (load_outcome e1 s1 Hst1 Hav1), (load_outcome e2 s Hst Hav).
      rewrite (sameWorld_tryThrows e1 e2 Hw).
      destruct Hw as (_ & _ & _ & ->). reflexivity. }
    split; [exact Ho|]. intros Hdone.
    rewrite (load_rows_by_world e1 s1 Hst1 Hav1 Hdone).
    rewrite (load_rows_by_world e2 s Hst Hav) by (rewrite <- Ho; exact Hdone).
    rewrite (sameWorld_tryThrows e1 e2 Hw).
    destruct Hw as (Hf & Ha & _ & _). unfold _getPCRecordsFolder.
    now rewrite Hf, Ha. }
  split; [apply Hpair|].
  intros Hsucc Hlater.
  assert (Hst : starts e2 (fst (loadLastEntries e1 s1))).
  { destruct (loadLastEntries e1 s1) as [s' o] eqn:E. cbn [fst snd] in *. subst o.
    destruct (load_success_fields e1 s1 s' E) as (Hl & Hlast & _).
    split; [exact Hl | now rewrite Hlast]. }
  pose proof (load_makes_list e1 s1 Hst1 Hav1) as Hav.
  destruct (Hpair _ Hst Hav) as [Ho Hrows].
  split; [now rewrite <- Ho | symmetry; apply Hrows; now left].
Qed.

Lemma render_depends_on_world_only_witness :
  snd (loadLastEntries (world 10400) (fst (loadLastEntries (world 10000) running)))
  = Succeeded
  /\ renderedRows
       (fst (loadLastEntries (world 10400)
               (fst (loadLastEntries (world 10000) running))))
     = renderedRows (fst (loadLastEntries (world 10000) running)).
Proof.
  assert (Hw : sameWorld (world 10000) (world 10400)) by (repeat split).
  assert (Hst : starts (world 10000) running)
    by (split; vm_compute; [reflexivity | discriminate]).
  destruct (render_depends_on_world_only (world 10000) (world 10400) running
              running Hw Hst eq_refl) as [_ Hagain].
  apply Hagain; [vm_compute; reflexivity | vm_compute; discriminate].
Defined.

(** ** The order of the recent records, for every id *)

Lemma roundMagnitude_bounds (n : Z) :
  0 <= n ->
  match JS.roundMagnitude n with
  | Some m => 0 <= m < 2 ^ 1024 /\ (0 < n -> 0 < m)
  | None => 0 < n
  end.
Proof.
  intros Hn. unfold JS.roundMagnitude.
  assert (Hpow : 2 ^ 53 < 2 ^ 1024) by (apply Z.pow_lt_mono_r; lia).
  destruct (Z.ltb_spec n (2 ^ 53)) as [Hlt|Hge]; [split; lia|].
  assert (H53 : 0 < 2 ^ 53) by (apply Z.pow_pos_nonneg; lia).
  assert (Hn0 : 0 < n) by lia.
  assert (Hlog : 53 <= Z.log2 n).
  { rewrite <- (Z.log2_pow2 53) by lia. apply Z.log2_le_mono. exact Hge. }
  set (e := Z.log2 n - 52).
  assert (He : 0 < 2 ^ e) by (apply Z.pow_pos_nonneg; subst e; lia).
  assert (Hq : 1 <= n / 2 ^ e).
  { apply Z.div_le_lower_bound; [exact He|].
    pose proof (Z.log2_spec n Hn0) as [Hlo _].
    assert (2 ^ e <= 2 ^ Z.log2 n) by (apply Z.pow_le_mono_r; subst e; lia).
    lia. }
  set (q := n / 2 ^ e) in *.
  set (q' := if n mod 2 ^ e <? 2 ^ (e - 1) then q
             else if 2 ^ (e - 1) <? n mod 2 ^ e then q + 1
             else if Z.even q then q else q + 1).
  assert (Hq' : 1 <= q').
  { subst q'. destruct (n mod 2 ^ e <? 2 ^ (e - 1)); [lia|].
    destruct (2 ^ (e - 1) <? n mod 2 ^ e); [lia|].
    destruct (Z.even q); lia. }
  assert (Hv : 0 < q' * 2 ^ e) by (apply Z.mul_pos_pos; lia).
  destruct (Z.leb_spec (2 ^ 1024) (q' * 2 ^ e)); [exact Hn0|].
  split; [lia | intros _; exact Hv].
Qed.

Lemma toNumber_sign (z : Z) : JS.isPositive (JS.toNumber z) = (0 <? z).
Proof.
  unfold JS.toNumber.
  pose proof (roundMagnitude_bounds (Z.abs z) (Z.abs_nonneg z)) as H.
  destruct (JS.roundMagnitude (Z.abs z)) as [m|].
  - destruct H as [[Hm _] Hpos]. cbn.
    destruct (Z.ltb_spec 0 z) as [Hz|Hz].
    + rewrite Z.sgn_pos by exact Hz. apply Z.ltb_lt. specialize (Hpos ltac:(lia)). lia.
    + apply Z.ltb_ge. destruct (Z.eq_dec z 0) as [->|Hne]; [cbn; lia|].
      rewrite Z.sgn_neg by lia. lia.
  - destruct (Z.ltb_spec z 0) as [Hz|Hz]; cbn.
    + symmetry. apply Z.ltb_ge. lia.
    + symmetry. apply Z.ltb_lt. lia.
Qed.

Lemma toNumber_idValued (z : Z) : 0 <= z -> idValued (JS.toNumber z).
Proof.
  intros Hz. unfold JS.toNumber.
  pose proof (roundMagnitude_bounds (Z.abs z) (Z.abs_nonneg z)) as H.
  destruct (JS.roundMagnitude (Z.abs z)) as [m|].
  - destruct H as [Hm _]. cbn. destruct (Z.eq_dec z 0) as [->|Hne]; [cbn; lia|].
    rewrite Z.sgn_pos by lia. lia.
  - destruct (Z.ltb_spec z 0); [lia | exact I].
Qed.

Lemma idNumber_toNumber (a : Actor) : idNumber a = JS.toNumber (idInteger a).
Proof.
  unfold idNumber, idInteger, JS.parseInt.
  destruct (idDigits_digitsOnly a) as [Hd Hne]. cbn zeta in Hd, Hne.
  rewrite digitPrefix_digitsOnly by exact Hd.
  destruct (JS.orElse (JS.stripNonDigits (JS.orElse (actor_id a) "")) "0");
    [congruence | reflexivity].
Qed.

Lemma idNumber_idValued (a : Actor) : idValued (idNumber a).
Proof.
  rewrite idNumber_toNumber. apply toNumber_idValued, idInteger_nonneg.
Qed.

Lemma sub_rank (va vb : JS.Number) :
  idValued va -> idValued vb ->
  JS.isPositive (JS.sub vb va) = (numberRank va <? numberRank vb).
Proof.
  destruct va as [x| | |], vb as [y| | |]; cbn; try contradiction; intros Ha Hb.
  - rewrite toNumber_sign.
    destruct (Z.ltb_spec 0 (y - x)), (Z.ltb_spec x y); lia || reflexivity.
  - symmetry. apply Z.ltb_lt. lia.
  - symmetry. apply Z.ltb_ge. lia.
  - symmetry. apply Z.ltb_irrefl.
Qed.

Lemma leb_rank (va vb : JS.Number) :
  idValued va -> idValued vb ->
  JS.leb vb va = (numberRank vb <=? numberRank va).
Proof.
  destruct va as [x| | |], vb as [y| | |]; cbn; try contradiction; intros Ha Hb.
  - reflexivity.
  - symmetry. apply Z.leb_gt. lia.
  - symmetry. apply Z.leb_le. lia.
  - symmetry. apply Z.leb_refl.
Qed.

Lemma eqb_rank (va vb : JS.Number) :
  idValued va -> idValued vb ->
  JS.eqb va vb = (numberRank va =? numberRank vb).
Proof.
  destruct va as [x| | |], vb as [y| | |]; cbn; try contradiction; intros Ha Hb.
  - reflexivity.
  - symmetry. apply Z.eqb_neq. lia.
  - symmetry. apply Z.eqb_neq. lia.
  - symmetry. apply Z.eqb_refl.
Qed.

Lemma recentCompare_rank (a b : Actor) :
  True -> True ->
  JS.isPositive (recentCompare a b)
  = (numberRank (idNumber a) <? numberRank (idNumber b)).
Proof.
  intros _ _. unfold recentCompare. apply sub_rank; apply idNumber_idValued.
Qed.

(** X12: for every collection, whatever its ids, [_getRecentActors]
    returns the first three of the folder's records put in descending
    order of the Number that [parseInt] reads off the digits of each id,
    records whose ids read as the same Number keeping their relative
    order. *)
Theorem recent_actors_sorted_by_number (actors : list Actor) (folder : Folder) :
  exists sorted : list Actor,
    Permutation sorted (List.filter (inFolder folder) actors)
    /\ descendingNumbers sorted
    /\ (forall a0, withNumber a0 sorted
                   = withNumber a0 (List.filter (inFolder folder) actors))
    /\ _getRecentActors actors folder = firstn 3 sorted.
Proof.
  set (members := List.filter (inFolder folder) actors).
  assert (Hall : Forall (fun _ : Actor => True) members)
    by (apply Forall_forall; trivial).
  exists (JS.sort recentCompare members).
  split; [apply sort_perm|]. split; [|split; [|apply recent_is_prefix]].
  - pose proof (sort_sorted recentCompare (fun a => numberRank (idNumber a))
                  (fun _ => True) recentCompare_rank members Hall) as Hs.
    unfold descendingNumbers.
    induction Hs as [|a l Hl IH Ha]; constructor; [exact IH|].
    eapply Forall_impl; [exact Ha|]. cbn. intros b Hb.
    rewrite leb_rank by apply idNumber_idValued. now apply Z.leb_le.
  - intros a0. unfold withNumber.
    pose proof (sort_stable recentCompare (fun a => numberRank (idNumber a))
                  (fun _ => True) recentCompare_rank
                  (numberRank (idNumber a0)) members Hall) as Hst.
    rewrite (filter_ext (fun a => JS.eqb (idNumber a) (idNumber a0))
               (fun a => numberRank (idNumber a) =? numberRank (idNumber a0))).
    + rewrite Hst. symmetry. apply filter_ext.
      intros a. apply eqb_rank; apply idNumber_idValued.
    + intros a. apply eqb_rank; apply idNumber_idValued.
Qed.

(* ===================================================================== *)
(** * Properties of the rest of the module *)
(* ===================================================================== *)

(** ** The PC Records folder *)

Lemma find_app_or {A : Type} (p : A -> bool) (l l' : list A) :
  List.find p (l ++ l')
  = match List.find p l with
    | Some x => Some x
    | None => List.find p l'
    end.
Proof.
  induction l as [|x l IH]; cbn; [reflexivity|].
  destruct (p x); [reflexivity | exact IH].
Qed.

(** X13: once [createPCRecordsFolder] has run, the lookup made by
    [loadLastEntries] finds a folder named PC Records of type Actor; the
    folders that were there are kept, at most one is added, none when
    the folder existed already, and running it again adds nothing. *)
Theorem created_folder_is_found (newId : string) (e : Env) (fs' : list Folder) :
  createPCRecordsFolder newId e = Value fs' ->
  (exists f, _getPCRecordsFolder (withFolders fs' e) = Value (Some f)
             /\ folder_name f = "PC Records" /\ folder_type f = "Actor")
  /\ (forall id2, createPCRecordsFolder id2 (withFolders fs' e) = Value fs')
  /\ (exists fs extra, game_folders e = Some fs /\ fs' = (fs ++ extra)%list
                       /\ (length extra <= 1)%nat)
  /\ (forall f, _getPCRecordsFolder e = Value (Some f) ->
      game_folders e = Some fs'
      /\ _getPCRecordsFolder (withFolders fs' e) = Value (Some f)).
Proof.
  unfold createPCRecordsFolder, _getPCRecordsFolder.
  destruct (game_folders e) as [fs|] eqn:Hfs; [|discriminate].
  set (p := fun f => String.eqb (folder_name f) "PC Records"
                     && String.eqb (folder_type f) "Actor").
  assert (Hfound : forall l f, List.find p l = Some f ->
            folder_name f = "PC Records" /\ folder_type f = "Actor").
  { intros l f H. apply find_some in H as [_ H]. subst p. cbn in H.
    apply andb_prop in H as [H1 H2].
    apply String.eqb_eq in H1. apply String.eqb_eq in H2. now split. }
  destruct (List.find p fs) as [f0|] eqn:Hfind; intros [= <-]; cbn [withFolders game_folders].
  - rewrite Hfind. split; [exists f0; split; [reflexivity | now apply (Hfound fs)]|].
    split; [reflexivity|]. split.
    + exists fs, []. rewrite app_nil_r. repeat split. cbn. lia.
    + intros f [= <-]. now split.
  - assert (Hnew : List.find p (fs ++ [{| folder_id := newId;
                                          folder_name := "PC Records";
                                          folder_type := "Actor" |}])
                   = Some {| folder_id := newId; folder_name := "PC Records";
                             folder_type := "Actor" |}).
    { rewrite find_app_or, Hfind. reflexivity. }
    rewrite Hnew. split; [eexists; repeat split|].
    split; [reflexivity|]. split.
    + eexists fs, [_]. repeat split. cbn. lia.
    + discriminate.
Qed.

Lemma created_folder_is_found_witness :
  exists f, _getPCRecordsFolder
              (withFolders [{| folder_id := "new"; folder_name := "PC Records";
                               folder_type := "Actor" |}] (worldEmpty 10000))
            = Value (Some f)
            /\ folder_name f = "PC Records".
Proof.
  destruct (created_folder_is_found "new" (worldEmpty 10000)
              [{| folder_id := "new"; folder_name := "PC Records";
                  folder_type := "Actor" |}] eq_refl) as [(f & Hf & Hn & _) _].
  exists f. split; [exact Hf | exact Hn].
Defined.

(** ** The player list *)

(** X14: both player-list functions leave a page without the list
    alone; on a page with the list they discard what it held and append
    one markup fragment per active user who is not a game master, or
    the single placeholder row when there is none, so that something is
    always written; and updating twice is the same as updating once. How
    many [li] elements the browser parses from a fragment is not stated:
    the names are written into it as they are. *)
Theorem players_list_rows (users : list User) (old : list string) :
  updatePlayersList users None = None
  /\ loadPlayersList users None = None
  /\ (exists shown, updatePlayersList users (Some old) = Some shown
                    /\ length shown = Nat.max 1 (length (activePlayers users)))
  /\ (exists shown, loadPlayersList users (Some old) = Some shown
                    /\ length shown = Nat.max 1 (length (activePlayers users)))
  /\ updatePlayersList users (updatePlayersList users (Some old))
     = updatePlayersList users (Some old)
  /\ (Forall (fun u => user_active u = false \/ user_isGM u = true) users ->
      updatePlayersList users (Some old) = Some [noPlayersRow]
      /\ loadPlayersList users (Some old) = Some [noPlayersRow]).
Proof.
  unfold updatePlayersList, loadPlayersList.
  split; [reflexivity|]. split; [reflexivity|].
  destruct (activePlayers users) as [|u r] eqn:Hact; cbn.
  - repeat split; try (eexists; split; reflexivity).
  - split; [eexists; split; [reflexivity | cbn; rewrite length_map; lia]|].
    split; [eexists; split; [reflexivity | cbn; rewrite length_map; lia]|].
    split; [reflexivity|]. intros Hall. exfalso.
    assert (Hin : In u (activePlayers users)) by (rewrite Hact; now left).
    apply filter_In in Hin as [Hin Hu]. apply andb_prop in Hu as [Ha Hg].
    rewrite Forall_forall in Hall.
    destruct (Hall u (proj2 (list_elem_of_In _ _) Hin)) as [H|H];
      [congruence | rewrite H in Hg; discriminate].
Qed.

Lemma players_list_rows_witness :
  updatePlayersList [] (Some ["stale"]) = Some [noPlayersRow]
  /\ length (default [] (updatePlayersList sampleUsers (Some ["stale"]))) = 2%nat.
Proof.
  destruct (players_list_rows [] ["stale"]) as (_ & _ & _ & _ & _ & Hnone).
  split; [apply Hnone; constructor | reflexivity].
Defined.

(** ** The encryption key of the login animation *)

Lemma length_append (s1 s2 : string) :
  String.length (s1 +:+ s2) = (String.length s1 + String.length s2)%nat.
Proof.
  induction s1 as [|c r IH]; [reflexivity|].
  change (S (String.length (r +:+ s2)) = S (String.length r + String.length s2)).
  now rewrite IH.
Qed.

Lemma charAt_length (s : string) (i : nat) :
  (i < String.length s)%nat -> String.length (JS.charAt s i) = 1%nat.
Proof.
  unfold JS.charAt. revert i. induction s as [|c r IH]; intros i Hi; cbn in Hi; [lia|].
  destruct i as [|i]; [reflexivity|]. cbn. apply IH. lia.
Qed.

Lemma appendRandom_step (n : nat) (draw : nat -> nat) (acc : string) :
  appendRandom (S n) draw acc
  = appendRandom n draw acc +:+ JS.charAt keyAlphabet (draw n).
Proof. unfold appendRandom. rewrite seq_S, fold_left_app. reflexivity. Qed.

Lemma appendRandom_acc (n : nat) (draw : nat -> nat) (acc : string) :
  appendRandom n draw acc = acc +:+ generateEncryptionKey n draw.
Proof.
  unfold generateEncryptionKey. induction n as [|n IH].
  - cbn. now rewrite append_empty_r.
  - rewrite !appendRandom_step, IH, append_assoc. reflexivity.
Qed.

Lemma generateEncryptionKey_length (n : nat) (draw : nat -> nat) :
  (forall i, draw i < 36)%nat ->
  String.length (generateEncryptionKey n draw) = n.
Proof.
  intros Hd. unfold generateEncryptionKey. induction n as [|n IH]; [reflexivity|].
  rewrite appendRandom_step, length_append, IH, charAt_length; [lia|].
  apply Hd.
Qed.

Lemma substring0_length (p : nat) (s : string) :
  String.length (JS.substring0 p s) = Nat.min p (String.length s).
Proof.
  revert s. induction p as [|p IH]; intros s; [reflexivity|].
  destruct s as [|c r]; [reflexivity|]. cbn. now rewrite IH.
Qed.

Lemma substring0_append (a b : string) :
  JS.substring0 (String.length a) (a +:+ b) = a.
Proof.
  induction a as [|c r IH]; [reflexivity|].
  change (String c (JS.substring0 (String.length r) (r +:+ b)) = String c r).
  now rewrite IH.
Qed.

Lemma substring0_all (p : nat) (s : string) :
  (String.length s <= p)%nat -> JS.substring0 p s = s.
Proof.
  revert s. induction p as [|p IH]; intros s Hp.
  - destruct s; [reflexivity | cbn in Hp; lia].
  - destruct s as [|c r]; [reflexivity|]. cbn in *. rewrite IH; [reflexivity | lia].
Qed.

(** X15: when every draw of [Math.floor(Math.random() * 36)] is below
    36, [generateEncryptionKey(n)] has [n] characters, and the key the
    animation displays always has as many characters as the final key,
    starts with its first [progress] characters, and is the final key
    itself once [progress] reaches its length, as in the last step of
    the animation. *)
Theorem key_display (finalKey : string) (n progress : nat) (draw draw' : nat -> nat) :
  (forall i, draw i < 36)%nat -> (forall i, draw' i < 36)%nat ->
  String.length (generateEncryptionKey n draw) = n
  /\ String.length (updateEncryptionKey finalKey progress draw')
     = String.length finalKey
  /\ JS.substring0 progress (updateEncryptionKey finalKey progress draw')
     = JS.substring0 progress finalKey
  /\ ((String.length finalKey <= progress)%nat ->
      updateEncryptionKey finalKey progress draw' = finalKey)
  /\ updateEncryptionKey (generateEncryptionKey 16 draw) (List.last stepProgress 0%nat) draw'
     = generateEncryptionKey 16 draw.
Proof.
  intros Hd Hd'. split; [now apply generateEncryptionKey_length|].
  unfold updateEncryptionKey.
  destruct (Nat.leb_spec (String.length finalKey) progress) as [Hle|Hlt].
  - split; [reflexivity|]. split; [reflexivity|]. split; [reflexivity|].
    rewrite generateEncryptionKey_length by exact Hd. reflexivity.
  - cbv zeta. rewrite appendRandom_acc.
    split.
    { rewrite length_append, substring0_length, generateEncryptionKey_length
        by exact Hd'. lia. }
    split.
    { assert (Hp : String.length (JS.substring0 progress finalKey) = progress)
        by (rewrite substring0_length; lia).
      rewrite <- Hp at 1. apply substring0_append. }
    split; [lia|].
    rewrite generateEncryptionKey_length by exact Hd. reflexivity.
Qed.

Lemma cyclingDraw_bound (i : nat) : (cyclingDraw i < 36)%nat.
Proof. unfold cyclingDraw. apply Nat.mod_upper_bound. discriminate. Qed.

Lemma key_display_witness :
  String.length (updateEncryptionKey (generateEncryptionKey 16 cyclingDraw) 9
                   cyclingDraw) = 16%nat.
Proof.
  destruct (key_display (generateEncryptionKey 16 cyclingDraw) 16 9
              cyclingDraw cyclingDraw cyclingDraw_bound cyclingDraw_bound)
    as (Hn & Hlen & _).
  rewrite Hlen. exact Hn.
Defined.

(** ** The mail system *)

Lemma fill_container (f : MailMessage -> string) (msgs : list MailMessage)
    (c : option (list string)) :
  fold_left (fun c msg => appendChild (f msg) <$> c) msgs c
  = (fun l => (l ++ map f msgs)%list) <$> c.
Proof.
  revert c. induction msgs as [|m r IH]; intros c; cbn.
  - destruct c; cbn; [now rewrite app_nil_r | reflexivity].
  - rewrite IH. destruct c; cbn; [|reflexivity].
    unfold appendChild. now rewrite <- app_assoc.
Qed.

Lemma displayMessages_messages (up : string -> string) (users : list User)
    (st : MailState) :
  mail_messages (mailState (displayMessages up users st)) = mail_messages st.
Proof.
  unfold displayMessages. destruct (mail_messages st) eqn:E; [reflexivity|].
  match goal with |- context [match ?x with Some _ => _ | None => _ end] =>
    destruct x end; reflexivity.
Qed.

(** X16: [displayMessages] replaces what the container showed by the
    single line NO MESSAGES when no message is stored and by one block
    per stored message, in order, otherwise, and it leaves the stored
    messages alone; on a page without the container it returns normally
    when no message is stored and throws as soon as one is. *)
Theorem mail_display (up : string -> string) (users : list User)
    (msgs : list MailMessage) (old : option (list string)) :
  mail_messages (mailState (displayMessages up users
                   {| mail_messages := msgs; mail_container := old |})) = msgs
  /\ (forall c, old = Some c ->
      mailThrows (displayMessages up users
                    {| mail_messages := msgs; mail_container := old |}) = false
      /\ mail_container (mailState (displayMessages up users
                           {| mail_messages := msgs; mail_container := old |}))
         = Some (match msgs with
                 | [] => [noMessagesRow]
                 | _ => map (messageDiv up users) msgs
                 end))
  /\ (old = None ->
      mail_container (mailState (displayMessages up users
                        {| mail_messages := msgs; mail_container := old |})) = None
      /\ (mailThrows (displayMessages up users
                        {| mail_messages := msgs; mail_container := old |}) = true
          <-> msgs <> [])).
Proof.
  split; [apply displayMessages_messages|].
  unfold displayMessages. cbn [mail_messages mail_container].
  rewrite fill_container.
  split.
  - intros c ->. destruct msgs as [|m r]; cbn; split; reflexivity.
  - intros ->. destruct msgs as [|m r]; cbn.
    + split; [reflexivity|]. split; [discriminate | congruence].
    + split; [reflexivity|]. split; [discriminate | reflexivity].
Qed.

Lemma mail_display_witness :
  mailThrows (displayMessages asciiUpper sampleUsers
                {| mail_messages := [toMail asciiUpper
                                       (chatLine 1 (List.hd
                                          {| user_id := ""; user_name := "";
                                             user_color := ""; user_active := false;
                                             user_isGM := false;
                                             user_character := None |}
                                          sampleUsers))];
                   mail_container := None |}) = true.
Proof.
  match goal with
  | |- mailThrows (displayMessages ?up ?us {| mail_messages := ?ms;
                                              mail_container := None |}) = true =>
      destruct (mail_display up us ms None) as (_ & _ & H)
  end.
  destruct (H eq_refl) as [_ [_ Hthrows]]. apply Hthrows. discriminate.
Defined.

Lemma sliceLast_suffix {A : Type} (n : nat) (l : list A) :
  l = (firstn (length l - n) l ++ JS.sliceLast n l)%list
  /\ length (JS.sliceLast n l) = Nat.min n (length l).
Proof.
  unfold JS.sliceLast. split; [symmetry; apply firstn_skipn|].
  rewrite length_skipn. lia.
Qed.

(** X17: [loadMessages] stores, whatever was stored before, the last 50
    messages of the chat log, or all when there are fewer, in their
    order and converted to the interface's format; a message rendered
    afterwards is added behind them, so the stored list can grow past 50. *)
Theorem mail_keeps_recent (up : string -> string) (chat : list ChatMessage)
    (users : list User) (st : MailState) :
  exists older recent : list ChatMessage,
    chat = (older ++ recent)%list
    /\ length recent = Nat.min 50 (length chat)
    /\ mail_messages (mailState (loadMessages up chat users st))
       = map (toMail up) recent
    /\ forall m,
        mail_messages (mailState (renderChatMessage up m users
                                    (mailState (loadMessages up chat users st))))
        = (map (toMail up) recent ++ [toMail up m])%list.
Proof.
  destruct (sliceLast_suffix 50 chat) as [Hsplit Hlen].
  exists (firstn (length chat - 50) chat), (JS.sliceLast 50 chat).
  split; [exact Hsplit|]. split; [exact Hlen|].
  assert (Hload : mail_messages (mailState (loadMessages up chat users st))
                  = map (toMail up) (JS.sliceLast 50 chat)).
  { unfold loadMessages. now rewrite displayMessages_messages. }
  split; [exact Hload|]. intros m. unfold renderChatMessage.
  rewrite displayMessages_messages. cbn. now rewrite Hload.
Qed.

(** X18: the name shown for a listed user is always coloured like some
    listed user, never in the default green for want of a match; a name
    that matches no user is shown in the default green; and the messages
    of the game master, shown as HANDLER, take the colour of the first
    listed user when that user is a game master. *)
Theorem sender_colour (up : string -> string) (users : list User) :
  (forall u, In u users ->
     exists u', In u' users
                /\ senderColor up users (formatSenderName up u) = user_color u')
  /\ (forall sender, senderUser up users sender = None ->
      senderColor up users sender = defaultColor)
  /\ (forall u rest, users = u :: rest -> user_isGM u = true ->
      senderColor up users "HANDLER" = user_color u).
Proof.
  split; [|split].
  - intros u Hu. unfold senderColor, senderUser.
    match goal with |- context [List.find ?q users] => set (p := q) end.
    assert (Hp : p u = true).
    { subst p. cbn. unfold formatSenderName.
      destruct (user_isGM u); cbn; [reflexivity | apply String.eqb_refl]. }
    destruct (List.find p users) as [u'|] eqn:Hf.
    + exists u'. split; [|reflexivity]. now apply find_some in Hf as [Hin _].
    + exfalso. apply (find_none p users Hf u) in Hu. congruence.
  - intros sender H. unfold senderColor. now rewrite H.
  - intros u rest -> Hgm. unfold senderColor, senderUser. cbn. now rewrite Hgm.
Qed.

Lemma sender_colour_witness :
  senderColor asciiUpper sampleUsers "HANDLER" = "#ff0000"
  /\ exists u', In u' sampleUsers
                /\ senderColor asciiUpper sampleUsers "BOB" = user_color u'.
Proof.
  destruct (sender_colour asciiUpper sampleUsers) as (Hknown & _ & Hgm).
  split.
  - rewrite (Hgm _ _ eq_refl eq_refl). reflexivity.
  - apply (Hknown {| user_id := "u2"; user_name := "Bob"; user_color := "#0000ff";
                     user_active := true; user_isGM := false;
                     user_character := None |}).
    cbn. tauto.
Defined.
